(** * Layout-and-fit engine of the tidsflyt one-page generators

    A shallow embedding of the two page generators of the repository,
    [tmp/pdfs/generate_tidum_app_summary_pdf.py] (the vector variant, module
    [Pdf]) and [scripts/generate_onepager_imagegen.py] (the raster variant,
    module [Imagegen]), and the properties of their word wrapper, bullet flow
    and scale-fit driver.

    Numbers are IEEE binary64 values, as Python's [float]; the small integer
    constants of the scripts (margins, paddings, page sizes) convert to them
    exactly.  Text is a list of Unicode code points ([str]); names of fonts,
    colours and files are plain strings.  The font metrics
    ([pdfmetrics.stringWidth], [ImageDraw.textlength]) are not part of the
    repository: they are section variables. *)

From Stdlib Require Import String Ascii List Bool ZArith Lia.
From Stdlib Require Import Floats.PrimFloat Numbers.Cyclic.Int63.Uint63.
From stdpp Require Import base option list gmap strings.
Import ListNotations.

Set Warnings "-inexact-float".
Set Default Proof Using "Type".

(** ** Python string primitives *)

Module PyStr.

Definition char := N.
Definition str := list char.

(** A literal of the scripts whose characters are all ASCII. *)
Definition lit (s : string) : str := map N_of_ascii (list_ascii_of_string s).

Definition space : char := 32%N.

(** [str.isspace] on one code point (CPython's [Py_UNICODE_ISSPACE]). *)
Definition isspace (ch : char) : bool :=
  (((9 <=? ch) && (ch <=? 13)) || ((28 <=? ch) && (ch <=? 32))
   || (ch =? 133) || (ch =? 160) || (ch =? 5760)
   || ((8192 <=? ch) && (ch <=? 8202))
   || (ch =? 8232) || (ch =? 8233) || (ch =? 8239) || (ch =? 8287)
   || (ch =? 12288))%N.

(** [s.split()] with no separator: the maximal runs of non-whitespace
    characters, in order; never an empty string among them. *)
Fixpoint split (s : str) : list str :=
  match s with
  | [] => []
  | ch :: rest =>
      if isspace ch then split rest
      else match rest with
           | [] => [[ch]]
           | ch' :: _ =>
               if isspace ch' then [ch] :: split rest
               else match split rest with
                    | w :: ws => (ch :: w) :: ws
                    | [] => [[ch]]
                    end
           end
  end.

Fixpoint lstrip (s : str) : str :=
  match s with
  | [] => []
  | ch :: rest => if isspace ch then lstrip rest else s
  end.

Fixpoint rstrip (s : str) : str :=
  match s with
  | [] => []
  | ch :: rest =>
      match rstrip rest with
      | [] => if isspace ch then [] else [ch]
      | kept => ch :: kept
      end
  end.

(** [s.strip()] *)
Definition strip (s : str) : str := rstrip (lstrip s).

(** Truth value of a string, as in [if line:]. *)
Definition truthy (s : str) : bool :=
  match s with [] => false | _ => true end.

(** A token: a non-empty string without whitespace, which is what [split]
    returns. *)
Definition is_token (s : str) : bool :=
  truthy s && forallb (fun ch => negb (isspace ch)) s.

(** [" ".join(ws)] *)
Fixpoint unwords (ws : list str) : str :=
  match ws with
  | [] => []
  | [w] => w
  | w :: rest => w ++ space :: unwords rest
  end.

(** Every two neighbours of a list are related. *)
Fixpoint adjacent {A : Type} (R : A -> A -> Prop) (l : list A) : Prop :=
  match l with
  | a :: (b :: _) as rest => R a b /\ adjacent R rest
  | _ => True
  end.

End PyStr.

(** ** The vector variant: generate_tidum_app_summary_pdf.py *)

Module Pdf.
Import PyStr.

Local Open Scope float_scope.

(** *** The canvas: the drawing calls it has received, in order *)

Inductive color :=
| HexColor (code : string)
| black.

Inductive op :=
| setTitle (t : string)
| setFillColor (col : color)
| setStrokeColor (col : color)
| setFont (name : string) (size : float)
| setLineWidth (w : float)
| drawString (x y : float) (text : str)
| line (x1 y1 x2 y2 : float).

Record canvas := Canvas {
  filename : string;
  pagesize : float * float;
  ops : list op
}.

Definition emit (c : canvas) (o : op) : canvas :=
  Canvas (filename c) (pagesize c) (ops c ++ [o]).

(** [c.save()] writes the document to the canvas's file, replacing what was
    there.  The file system is taken to accept the write: a save that
    raises (a missing directory, a read-only file) is outside the model. *)
Definition save (c : canvas) (fs : gmap string canvas) : gmap string canvas :=
  <[filename c := c]> fs.

(** [c1] is [c0] after some more drawing calls. *)
Definition extends (c0 c1 : canvas) : Prop :=
  filename c1 = filename c0 /\ pagesize c1 = pagesize c0
  /\ exists more, ops c1 = ops c0 ++ more.

(** The drawing call that paints a bullet marker. *)
Definition is_marker (o : op) : bool :=
  match o with
  | drawString _ _ t => bool_decide (t = lit "- ")
  | _ => false
  end.

Definition count_markers (l : list op) : nat :=
  length (List.filter is_marker l).

(** The drawing call that sets the fill colour of a section heading. *)
Definition is_heading_fill (o : op) : bool :=
  match o with
  | setFillColor (HexColor code) => String.eqb code "#163B5A"
  | _ => false
  end.

Definition count_headings (l : list op) : nat :=
  length (List.filter is_heading_fill l).

(** The cursor after [n] lines: [y -= leading], [n] times. *)
Definition lowered (n : nat) (leading y : float) : float :=
  Nat.iter n (fun v => v - leading) y.

Section WithMetrics.

(** [pdfmetrics.stringWidth(text, fontName, fontSize)] *)
Variable stringWidth : str -> string -> float -> float.

(** The loop [for word in words[1:]] of [wrap_text] and the final append. *)
Fixpoint wrap_loop (font_name : string) (font_size width : float)
    (words : list str) (lines : list str) (current : str) : list str :=
  match words with
  | [] => lines ++ [current]
  | word :: rest =>
      let candidate := current ++ space :: word in
      if stringWidth candidate font_name font_size <=? width
      then wrap_loop font_name font_size width rest lines candidate
      else wrap_loop font_name font_size width rest (lines ++ [current]) word
  end.

Definition wrap_text (text : str) (font_name : string)
    (font_size width : float) : list str :=
  match split text with
  | [] => [[]]
  | first :: others => wrap_loop font_name font_size width others [] first
  end.

(** The loop [for line in lines: c.drawString(x, y, line); y -= leading]. *)
Fixpoint draw_lines (c : canvas) (x y leading : float) (lines : list str)
  : canvas * float :=
  match lines with
  | [] => (c, y)
  | ln :: rest =>
      draw_lines (emit c (drawString x y ln)) x (y - leading) leading rest
  end.

Definition draw_paragraph (c : canvas) (text : str) (x y width : float)
    (font_name : string) (font_size leading : float) : canvas * float :=
  let lines := wrap_text text font_name font_size width in
  let c := emit c (setFont font_name font_size) in
  draw_lines c x y leading lines.

Definition draw_bullet (c : canvas) (text : str) (x y width : float)
    (font_name : string) (font_size leading : float) : canvas * float :=
  let bullet := lit "- " in
  let bullet_width := stringWidth bullet font_name font_size in
  let wrapped := wrap_text text font_name font_size (width - bullet_width) in
  let c := emit c (setFont font_name font_size) in
  match wrapped with
  | first :: others =>
      let c := emit c (drawString x y bullet) in
      let c := emit c (drawString (x + bullet_width) y first) in
      let y := y - leading in
      draw_lines c (x + bullet_width) y leading others
  | [] => (c, y)
  end.

(** *** The driver [build_single_page_pdf]

    The page size, margin, title, sections and scale factors are literals
    of the function body; the body is embedded over a record of them
    ([build_single_page_pdf_with]) and then instantiated at the literals
    ([build_single_page_pdf]). *)

Definition section : Type := str * list str * bool.

Record inputs := Inputs {
  letter : float * float;
  margin : float;
  title : str;
  sections : list section;
  scales : list float
}.

(** The locals of the function that live across the iterations of the
    scale loop. *)
Record frame := Frame {
  c : canvas;
  y : float;
  overflow : bool
}.

(** The loop [for line in lines] of one section. *)
Fixpoint line_loop (margin content_width body_size body_leading : float)
    (as_bullets : bool) (lines : list str) (c : canvas) (y : float)
  : canvas * float :=
  match lines with
  | [] => (c, y)
  | ln :: rest =>
      let '(c, y) :=
        if as_bullets
        then draw_bullet c ln margin y content_width "Helvetica"
               body_size body_leading
        else draw_paragraph c ln margin y content_width "Helvetica"
               body_size body_leading in
      line_loop margin content_width body_size body_leading as_bullets rest c y
  end.

(** The body of the section loop up to the overflow test. *)
Definition draw_one_section
    (margin content_width heading_size heading_leading body_size body_leading
       section_gap : float)
    (sec : section) (c : canvas) (y : float) : canvas * float :=
  let '(section_title, lines, as_bullets) := sec in
  let c := emit c (setFillColor (HexColor "#163B5A")) in
  let c := emit c (setFont "Helvetica-Bold" heading_size) in
  let c := emit c (drawString margin y section_title) in
  let y := y - heading_leading in
  let c := emit c (setFillColor black) in
  let '(c, y) :=
    line_loop margin content_width body_size body_leading as_bullets lines c y in
  let y := y - section_gap in
  (c, y).

(** The loop [for section_title, lines, as_bullets in sections], entered
    with [overflow = False]; the [break] leaves the remaining sections
    untouched. *)
Fixpoint section_loop
    (margin content_width heading_size heading_leading body_size body_leading
       section_gap : float)
    (secs : list section) (c : canvas) (y : float) : frame :=
  match secs with
  | [] => Frame c y false
  | sec :: rest =>
      let '(c, y) :=
        draw_one_section margin content_width heading_size heading_leading
          body_size body_leading section_gap sec c y in
      if y <? margin + 8
      then Frame c y true
      else section_loop margin content_width heading_size heading_leading
             body_size body_leading section_gap rest c y
  end.

(** One iteration of the scale loop up to the test [if not overflow].
    [prev] holds the locals as the previous iteration left them ([None]
    before the first one). *)
Definition attempt (inp : inputs) (output_path : string) (scale : float)
    (prev : option frame) : frame :=
  let '(width, height) := letter inp in
  let margin := margin inp in
  let content_width := width - margin * 2 in
  let c := Canvas output_path (letter inp) [] in
  let y := height - margin in
  let title_size := 24 * scale in
  let heading_size := 13.5 * scale in
  let body_size := 11.0 * scale in
  let title_leading := 28 * scale in
  let heading_leading := 17 * scale in
  let body_leading := 13.6 * scale in
  let section_gap := 8 * scale in
  let c := emit c (setTitle "Tidum App Summary") in
  let c := emit c (setFillColor (HexColor "#132031")) in
  let c := emit c (setFont "Helvetica-Bold" title_size) in
  let c := emit c (drawString margin y (title inp)) in
  let y := y - title_leading in
  let c := emit c (setStrokeColor (HexColor "#D8DEE9")) in
  let c := emit c (setLineWidth 1) in
  let c := emit c (line margin (y + 4) (width - margin) (y + 4)) in
  let y := y - 8 * scale in
  let y := y - 1 * scale in
  section_loop margin content_width heading_size heading_leading
    body_size body_leading section_gap (sections inp) c y.

(** The drawing calls an attempt makes before the section loop: the title
    sits at the top margin, [height - margin]. *)
Definition title_block (inp : inputs) (scale : float) : list op :=
  let '(width, height) := letter inp in
  let margin := margin inp in
  [ setTitle "Tidum App Summary";
    setFillColor (HexColor "#132031");
    setFont "Helvetica-Bold" (24 * scale);
    drawString margin (height - margin) (title inp);
    setStrokeColor (HexColor "#D8DEE9");
    setLineWidth 1;
    line margin (height - margin - 28 * scale + 4) (width - margin)
      (height - margin - 28 * scale + 4) ].

(** The same inputs with another list of sections. *)
Definition with_sections (inp : inputs) (secs : list section) : inputs :=
  Inputs (letter inp) (margin inp) (title inp) secs (scales inp).

(** The loop [for scale in ...]: the locals at exit and the file system. *)
Fixpoint scale_loop (inp : inputs) (output_path : string)
    (candidates : list float) (prev : option frame) (fs : gmap string canvas)
  : option frame * gmap string canvas :=
  match candidates with
  | [] => (prev, fs)
  | scale :: rest =>
      let fr := attempt inp output_path scale prev in
      if negb (overflow fr)
      then (Some fr, save (c fr) fs)
      else scale_loop inp output_path rest (Some fr) (save (c fr) fs)
  end.

(** The function returns [None] ([tt]) on both of its exits; its effect is
    the file system. *)
Definition build_single_page_pdf_with (inp : inputs) (output_path : string)
    (fs : gmap string canvas) : unit * gmap string canvas :=
  (tt, snd (scale_loop inp output_path (scales inp) None fs)).

Definition the_sections : list section :=
  [ (lit "What it is",
     [ lit "Tidum is a web app for logging work time, managing workforce workflows, and handling case-report processes.";
       lit "The codebase combines a React frontend with Express APIs and PostgreSQL/Drizzle storage." ],
     false);
    (lit "Who it is for",
     [ lit "Primary persona (inferred from role model and pages): Norwegian operations teams where staff log hours/case work and team leads/admins review operations.";
       lit "Formal persona document: Not found in repo." ],
     false);
    (lit "What it does",
     [ lit "Track time with live timer, manual entry, bulk entry, and CRUD endpoints.";
       lit "View dashboard stats, activity feed, and chart analytics.";
       lit "Handle leave, overtime, recurring entries, and invoices (including invoice PDF endpoint).";
       lit "Manage case reports through draft, submit, review, approve/reject, and comment states.";
       lit "Use role-based auth and admin controls, including vendor API key management and /api/v1/vendor/* access.";
       lit "Edit public content in CMS: builder pages, blog, forms, media, SEO, versions, and scheduling." ],
     true);
    (lit "How it works (architecture)",
     [ lit "Client: React + Wouter (client/src/App.tsx) with TanStack Query (client/src/lib/queryClient.ts).";
       lit "Server: Express app in server/index.ts wires registerRoutes, registerSmartTimingRoutes, and vendorApi.";
       lit "Data: PostgreSQL (pg pool) + Drizzle in server/db.ts with shared tables in shared/schema.ts.";
       lit "Flow: Browser -> /api/* routes + middleware -> Drizzle queries -> JSON -> React Query cache -> UI." ],
     true);
    (lit "How to run (minimal)",
     [ lit "Prereqs: Node.js 20+ and PostgreSQL 14+ (CONTRIBUTING.md).";
       lit "npm install";
       lit "cp .env.example .env, then set at least DATABASE_URL and SESSION_SECRET.";
       lit "npm run db:push";
       lit "npm run dev, then open http://localhost:5000" ],
     true) ].

(** [reportlab.lib.pagesizes.letter] is 8.5 by 11 inches at 72 points. *)
Definition the_inputs : inputs :=
  Inputs (612, 792) 48 (lit "Tidum App Summary (Repo-based)") the_sections
    [1.0; 0.96; 0.93; 0.9].

Definition build_single_page_pdf (output_path : string)
    (fs : gmap string canvas) : unit * gmap string canvas :=
  build_single_page_pdf_with the_inputs output_path fs.

(** The wrapped lines of one run of a section, as [draw_paragraph] or
    [draw_bullet] computes them from [line_loop]'s arguments. *)
Definition wrapped_lines (content_width body_size : float) (as_bullets : bool)
    (run : str) : list str :=
  if as_bullets
  then wrap_text run "Helvetica" body_size
         (content_width - stringWidth (lit "- ") "Helvetica" body_size)
  else wrap_text run "Helvetica" body_size content_width.

(** The cursor after each section, when the sections are laid out one
    under the other from cursor [y]: the values the test
    [y < margin + 8] meets as long as it does not break. *)
Fixpoint cursor_trail
    (content_width heading_leading body_size body_leading section_gap : float)
    (secs : list section) (y : float) : list float :=
  match secs with
  | [] => []
  | sec :: rest =>
      let '(_, lines, as_bullets) := sec in
      let y1 :=
        lowered
          (length (flat_map (wrapped_lines content_width body_size as_bullets)
                     lines))
          body_leading (y - heading_leading)
        - section_gap in
      y1 :: cursor_trail content_width heading_leading body_size body_leading
              section_gap rest y1
  end.

(** The cursors of the page at one scale: the section loop starts under
    the title and its rule, and all sizes and leadings are scaled. *)
Definition page_cursors (inp : inputs) (scale : float) : list float :=
  cursor_trail (fst (letter inp) - margin inp * 2) (17 * scale) (11.0 * scale)
    (13.6 * scale) (8 * scale) (sections inp)
    (snd (letter inp) - margin inp - 28 * scale - 8 * scale - 1 * scale).

(** The body of the section loop with the sizes of an attempt at
    [scale]. *)
Definition attempt_section (inp : inputs) (scale : float) (sec : section)
    (c : canvas) (y : float) : canvas * float :=
  draw_one_section (margin inp) (fst (letter inp) - margin inp * 2)
    (13.5 * scale) (17 * scale) (11.0 * scale) (13.6 * scale) (8 * scale)
    sec c y.

End WithMetrics.

End Pdf.

(** ** The raster variant: generate_onepager_imagegen.py *)

Module Imagegen.
Import PyStr.

Local Open Scope float_scope.

(** The integers of the script, where they meet a measured width. The
    conversion is exact below 2^53. *)
Definition float_of_Z (z : Z) : float :=
  match z with
  | Z0 => 0
  | Zpos _ => of_uint63 (Uint63.of_Z z)
  | Zneg p => - of_uint63 (Uint63.of_Z (Zpos p))
  end.

Inductive font := title_font | h1_font | body_font | small_font.

(** The calls received by the [ImageDraw] object [d]. *)
Inductive draw_op :=
| rounded_rectangle (x0 y0 x1 y1 : Z) (radius : Z) (fill outline : string)
    (width : Z)
| text (x y : Z) (s : str) (f : font) (fill : string).

Definition W : Z := 2480.
Definition H : Z := 3508.
Definition margin : Z := 120.
Definition content_w : Z := W - margin * 2.

(** The vertical extents of the rounded rectangles drawn, in order. *)
Definition boxes (d : list draw_op) : list (Z * Z) :=
  flat_map
    (fun o =>
       match o with
       | rounded_rectangle _ y0 _ y1 _ _ _ _ => [(y0, y1)]
       | text _ _ _ _ _ => []
       end)
    d.

(** The marker of a bullet's first line and the indent of its
    continuation lines. *)
Definition bullet_marker : str := [8226%N; space].
Definition blank_marker : str := [space; space].

Section WithMetrics.

(** [d.textlength(t, font=font)] *)
Variable textlength : str -> font -> float.

(** The loop [for w in words] of [wrap_text]. *)
Fixpoint wrap_loop (f : font) (max_width : float) (words : list str)
    (lines : list str) (line : str) : list str * str :=
  match words with
  | [] => (lines, line)
  | w :: rest =>
      let t := strip (line ++ space :: w) in
      if textlength t f <=? max_width
      then wrap_loop f max_width rest lines t
      else wrap_loop f max_width rest (lines ++ [line]) w
  end.

Definition wrap_text (txt : str) (f : font) (max_width : float) : list str :=
  let words := split txt in
  let '(lines, line) := wrap_loop f max_width words [] [] in
  if truthy line then lines ++ [line] else lines.

(** [for i, wl in enumerate(wrapped)]: the marker on line 0, the indent on
    the others. *)
Fixpoint mark_lines (i : nat) (wrapped : list str) : list str :=
  match wrapped with
  | [] => []
  | wl :: rest =>
      (if Nat.eqb i 0 then bullet_marker ++ wl else blank_marker ++ wl)
        :: mark_lines (S i) rest
  end.

(** The first part of [draw_section]: the list [text_lines]. *)
Definition section_text_lines (lines : list str) (bullet : bool) : list str :=
  let inner_pad := 34%Z in
  if bullet
  then flat_map
         (fun ln =>
            mark_lines 0
              (wrap_text ln body_font
                 (float_of_Z (content_w - inner_pad * 2 - 40))))
         lines
  else flat_map
         (fun ln =>
            wrap_text ln body_font (float_of_Z (content_w - inner_pad * 2)))
         lines.

(** The loop that paints [text_lines], 44 pixels apart. *)
Fixpoint paint_lines (inner_pad : Z) (ty : Z) (text_lines : list str)
  : list draw_op :=
  match text_lines with
  | [] => []
  | ln :: rest =>
      text (margin + inner_pad) ty ln body_font "#2a4c53"
        :: paint_lines inner_pad (ty + 44) rest
  end.

(** [draw_section]: the drawing calls it adds and the new global [y]. *)
Definition draw_section (title : str) (lines : list str) (bullet : bool)
    (box border : string) (d : list draw_op) (y : Z) : list draw_op * Z :=
  let inner_pad := 34%Z in
  let title_h := 56%Z in
  let text_lines := section_text_lines lines bullet in
  let h := (inner_pad + title_h + Z.of_nat (length text_lines) * 44
            + inner_pad)%Z in
  let d := d ++ [rounded_rectangle margin y (W - margin) (y + h) 28 box
                   border 3] in
  let d := d ++ [text (margin + inner_pad) (y + inner_pad - 6) title h1_font
                   "#143e47"] in
  let ty := (y + inner_pad + title_h)%Z in
  let d := d ++ paint_lines inner_pad ty text_lines in
  (d, (y + h + 26)%Z).

End WithMetrics.

End Imagegen.

(** ** Sample metrics and pages

    A stand-in for the font metrics, in which every character is half an
    em wide, and small pages on which the drivers can be run. *)

Module Sample.
Import PyStr.

Local Open Scope float_scope.

Definition chars (s : str) : float :=
  of_uint63 (Uint63.of_Z (Z.of_nat (length s))).

Definition stringWidth (t : str) (font_name : string) (font_size : float)
  : float :=
  chars t * font_size * 0.5.

(** Ten pixels a character, whatever the font. *)
Definition textlength (t : str) (f : Imagegen.font) : float := chars t * 10.

Definition five_words : list str :=
  [lit "a"; lit "b"; lit "c"; lit "d"; lit "e"].

(** A page 230 points high: at scale 1.0 the only section ends with the
    cursor near 52, between the margin (48) and the margin plus 8. *)
Definition tight_page : Pdf.inputs :=
  Pdf.Inputs (612, 230) 48 (lit "T") [(lit "S", five_words, false)]
    [1.0; 0.5].

(** The tight page with the scale 1.0 alone. *)
Definition tight_single : Pdf.inputs :=
  Pdf.Inputs (612, 230) 48 (lit "T") [(lit "S", five_words, false)] [1.0].

(** A page 150 points high with three sections: the first overflows at
    scale 1.0 and the second at scale 0.5. *)
Definition overfull_sections : list Pdf.section :=
  [ (lit "S1", [lit "one"], false);
    (lit "S2", [lit "two"], true);
    (lit "S3", [lit "three"], false) ].

Definition overfull_page : Pdf.inputs :=
  Pdf.Inputs (612, 150) 48 (lit "T") overfull_sections [1.0; 0.5].

(** The path [main] passes to the driver. *)
Definition output_path : string := "output/pdf/tidum-app-summary.pdf".

(** A run of two words of 107 characters each. *)
Definition long_word : str := repeat 120%N 107.
Definition long_run : str := long_word ++ space :: long_word.

End Sample.

(** ** Facts about the string primitives *)

Section StrFacts.
Import PyStr.

Lemma split_cons_nonspace (ch : char) (rest : str) :
  isspace ch = false -> split (ch :: rest) <> [].
Proof.
  intros Hch. simpl. rewrite Hch.
  destruct rest as [|ch' rest']; [discriminate|].
  destruct (isspace ch'); [discriminate|].
  destruct (split (ch' :: rest')); discriminate.
Qed.

(** Whitespace between two strings separates their tokens. *)
Lemma split_app_space (a b : str) (ch : char) :
  isspace ch = true -> split (a ++ ch :: b) = split a ++ split b.
Proof.
  intros Hsp. induction a as [|x a IH].
  - simpl. now rewrite Hsp.
  - change ((x :: a) ++ ch :: b) with (x :: (a ++ ch :: b)).
    cbn [split]. destruct (isspace x) eqn:Hx; [exact IH|].
    destruct a as [|x' a'].
    + cbn [app split]. now rewrite Hsp.
    + change ((x' :: a') ++ ch :: b) with (x' :: (a' ++ ch :: b)) in *.
      cbv beta iota. destruct (isspace x') eqn:Hx'.
      * rewrite IH. reflexivity.
      * rewrite IH.
        destruct (split (x' :: a')) as [|w ws] eqn:Hs.
        -- now apply split_cons_nonspace in Hs.
        -- reflexivity.
Qed.

Lemma split_token (w : str) : is_token w = true -> split w = [w].
Proof.
  unfold is_token. induction w as [|x w IH]; [discriminate|].
  cbn [truthy forallb andb]. intros H.
  apply andb_prop in H as [Hx Hw]. apply negb_true_iff in Hx.
  cbn [split]. rewrite Hx.
  destruct w as [|x' w']; [reflexivity|].
  cbn [forallb] in Hw. pose proof Hw as Hw'.
  apply andb_prop in Hw' as [Hx' _]. apply negb_true_iff in Hx'.
  rewrite Hx'. rewrite IH by exact Hw. reflexivity.
Qed.

Lemma split_tokens (s : str) : Forall (fun w => is_token w = true) (split s).
Proof.
  induction s as [|x s IH]; [constructor|].
  cbn [split]. destruct (isspace x) eqn:Hx; [exact IH|].
  assert (Hone : is_token [x] = true).
  { unfold is_token. cbn. now rewrite Hx. }
  destruct s as [|x' s']; [repeat constructor; exact Hone|].
  destruct (isspace x') eqn:Hx'; [constructor; assumption|].
  destruct (split (x' :: s')) as [|w ws]; [repeat constructor; exact Hone|].
  inversion IH as [|? ? Hw Hws]; subst. constructor; [|exact Hws].
  unfold is_token in *. cbn [truthy forallb andb].
  rewrite Hx. cbn. now apply andb_prop in Hw as [_ ->].
Qed.

Lemma split_lstrip (s : str) : split (lstrip s) = split s.
Proof.
  induction s as [|x s IH]; [reflexivity|].
  cbn [lstrip split]. destruct (isspace x) eqn:Hx; [exact IH|].
  cbn [split]. now rewrite Hx.
Qed.

Lemma rstrip_head (s kept : str) (k : char) :
  rstrip s = k :: kept -> exists s', s = k :: s'.
Proof.
  destruct s as [|x s]; [discriminate|]. cbn [rstrip].
  destruct (rstrip s); [destruct (isspace x)|]; intros [= <- _]; eauto.
Qed.

Lemma split_rstrip (s : str) : split (rstrip s) = split s.
Proof.
  induction s as [|x s IH]; [reflexivity|].
  cbn [rstrip]. destruct (rstrip s) as [|k kept] eqn:Hr.
  - cbn [split] in *. destruct (isspace x) eqn:Hx; [exact IH|].
    cbn [split]. rewrite Hx.
    destruct s as [|x' s']; [reflexivity|].
    destruct (isspace x'); rewrite <- IH; reflexivity.
  - destruct (rstrip_head _ _ _ Hr) as [s' ->].
    cbn [split] in *. destruct (isspace x); [exact IH|].
    destruct (isspace k); rewrite IH; reflexivity.
Qed.

Lemma split_strip (s : str) : split (strip s) = split s.
Proof. unfold strip. now rewrite split_rstrip, split_lstrip. Qed.

Lemma isspace_space : isspace space = true.
Proof. reflexivity. Qed.

(** A token is not empty and does not end with whitespace. *)
Lemma token_last (w : str) :
  is_token w = true -> exists pre ch, w = pre ++ [ch] /\ isspace ch = false.
Proof.
  unfold is_token. intros H. apply andb_prop in H as [Hne Hall].
  destruct (exists_last (l := w)) as [pre [ch ->]].
  { now destruct w. }
  exists pre, ch. split; [reflexivity|].
  rewrite forallb_app in Hall. apply andb_prop in Hall as [_ Hch].
  cbn in Hch. rewrite andb_true_r in Hch. now apply negb_true_iff.
Qed.

End StrFacts.

(** ** The word wrapper of the vector variant *)

Section PdfWrapFacts.
Import PyStr Pdf.
Local Open Scope float_scope.

Variable stringWidth : str -> string -> float -> float.
Variables (font_name : string) (font_size width : float).

Local Abbreviation wrap_loop := (Pdf.wrap_loop stringWidth font_name font_size width).
Local Abbreviation wrap_text := (fun t => Pdf.wrap_text stringWidth t font_name font_size width).
Local Abbreviation fits s := ((stringWidth s font_name font_size <=? width) = true).

(** Completed lines are never touched again. *)
Lemma pdf_wrap_loop_lines (words lines : list str) (current : str) :
  wrap_loop words lines current = lines ++ wrap_loop words [] current.
Proof.
  revert lines current. induction words as [|word rest IH]; intros lines current.
  - reflexivity.
  - cbn [Pdf.wrap_loop].
    destruct (stringWidth _ _ _ <=? width).
    + apply IH.
    + rewrite IH. rewrite (IH [current]). now rewrite <- app_assoc.
Qed.

(** A property of lines that the tokens have and accepted candidates keep
    holds of every line returned. *)
Lemma pdf_wrap_loop_Forall (P : str -> Prop) (words lines : list str)
    (current : str) :
  Forall P lines -> P current -> Forall P words ->
  (forall cur w, In w words -> P cur -> fits (cur ++ space :: w) ->
                 P (cur ++ space :: w)) ->
  Forall P (wrap_loop words lines current).
Proof.
  revert lines current.
  induction words as [|word rest IH]; intros lines current Hl Hc Hw Hstep.
  - cbn. apply Forall_app. split; [exact Hl|]. now constructor.
  - cbn [Pdf.wrap_loop]. inversion Hw as [|? ? Hword Hrest]; subst.
    destruct (stringWidth _ _ _ <=? width) eqn:Hfit.
    + apply IH; try assumption.
      * apply Hstep; [now left|assumption|exact Hfit].
      * intros cur w Hin. apply Hstep. now right.
    + apply IH; try assumption.
      * apply Forall_app. split; [exact Hl|]. now constructor.
      * intros cur w Hin. apply Hstep. now right.
Qed.

(** The tokens of the lines are the tokens of the buffer followed by the
    words still to come. *)
Lemma pdf_wrap_loop_tokens (words lines : list str) (current : str) :
  Forall (fun w => is_token w = true) words ->
  flat_map split (wrap_loop words lines current)
  = flat_map split lines ++ split current ++ words.
Proof.
  revert lines current.
  induction words as [|word rest IH]; intros lines current Hw.
  - cbn. rewrite flat_map_app. cbn. now rewrite !app_nil_r.
  - inversion Hw as [|? ? Hword Hrest]; subst. cbn [Pdf.wrap_loop].
    destruct (stringWidth _ _ _ <=? width).
    + rewrite IH by assumption.
      rewrite split_app_space by apply isspace_space.
      rewrite (split_token word) by assumption. now rewrite <- app_assoc.
    + rewrite IH by assumption. rewrite flat_map_app. cbn.
      rewrite app_nil_r, (split_token word) by assumption.
      now rewrite <- !app_assoc.
Qed.

(** The first line starts with the buffer the loop was entered with. *)
Lemma pdf_wrap_loop_head (words : list str) (current : str) :
  exists more tail, wrap_loop words [] current = (current ++ more) :: tail.
Proof.
  revert current. induction words as [|word rest IH]; intros current.
  - exists [], []. cbn. now rewrite app_nil_r.
  - cbn [Pdf.wrap_loop]. destruct (stringWidth _ _ _ <=? width).
    + destruct (IH (current ++ space :: word)) as (more & tail & ->).
      exists (space :: word ++ more), tail. now rewrite <- app_assoc.
    + rewrite pdf_wrap_loop_lines. exists [], (wrap_loop rest [] word).
      cbn. now rewrite app_nil_r.
Qed.

Lemma pdf_wrap_text_tokens (t : str) :
  flat_map split (wrap_text t) = split t.
Proof.
  cbv beta. unfold Pdf.wrap_text. pose proof (split_tokens t) as Htok.
  destruct (split t) as [|first others]; [reflexivity|].
  inversion Htok as [|? ? Hfirst Hothers]; subst.
  rewrite pdf_wrap_loop_tokens by assumption.
  cbn. now rewrite (split_token first).
Qed.

(** Every line is within the width or is one token of the text, provided
    the empty string is within the width. *)
Lemma pdf_wrap_text_width (t : str) :
  fits [] ->
  Forall (fun l => fits l \/ In l (split t)) (wrap_text t).
Proof.
  intros Hempty. cbv beta. unfold Pdf.wrap_text.
  destruct (split t) as [|first others] eqn:Hs.
  - repeat constructor. exact Hempty.
  - apply pdf_wrap_loop_Forall.
    + constructor.
    + right. now left.
    + apply List.Forall_forall. intros w Hin. right. now right.
    + intros cur w _ _ Hfit. now left.
Qed.

(** No line of a text with a token is empty. *)
Lemma pdf_wrap_text_nonempty (t : str) :
  split t <> [] -> Forall (fun l => l <> []) (wrap_text t).
Proof.
  intros Hne. cbv beta. unfold Pdf.wrap_text.
  pose proof (split_tokens t) as Htok.
  destruct (split t) as [|first others]; [contradiction|].
  assert (Hnonempty : forall w, is_token w = true -> w <> []).
  { intros w Hw ->. discriminate. }
  inversion Htok as [|? ? Hfirst Hothers]; subst.
  apply pdf_wrap_loop_Forall.
  - constructor.
  - now apply Hnonempty.
  - eapply List.Forall_impl; [|exact Hothers]. exact Hnonempty.
  - intros cur w _ _ _ Heq. now destruct cur.
Qed.

(** No line ends with whitespace. *)
Lemma pdf_wrap_text_last (t : str) :
  Forall (fun l => l = [] \/ exists pre ch, l = pre ++ [ch] /\ isspace ch = false)
    (wrap_text t).
Proof.
  cbv beta. unfold Pdf.wrap_text. pose proof (split_tokens t) as Htok.
  destruct (split t) as [|first others].
  - repeat constructor.
  - inversion Htok as [|? ? Hfirst Hothers]; subst.
    apply pdf_wrap_loop_Forall.
    + constructor.
    + right. now apply token_last.
    + eapply List.Forall_impl; [|exact Hothers]. intros w Hw. right.
      now apply token_last.
    + intros cur w Hin _ _. right.
      rewrite List.Forall_forall in Hothers.
      destruct (token_last w (Hothers w Hin)) as (pre & ch & -> & Hch).
      exists (cur ++ space :: pre), ch. split; [|exact Hch].
      now rewrite <- app_assoc.
Qed.

Lemma pdf_wrap_text_cons (t : str) :
  exists first others, wrap_text t = first :: others.
Proof.
  cbv beta. unfold Pdf.wrap_text. destruct (split t) as [|first others].
  - eauto.
  - destruct (pdf_wrap_loop_head others first) as (more & tail & ->). eauto.
Qed.

End PdfWrapFacts.

(** ** The word wrapper of the raster variant *)

Section ImagegenWrapFacts.
Import PyStr Imagegen.
Local Open Scope float_scope.

Variable textlength : str -> font -> float.
Variables (f : font) (max_width : float).

Local Abbreviation wrap_loop := (Imagegen.wrap_loop textlength f max_width).
Local Abbreviation wrap_text := (fun t => Imagegen.wrap_text textlength t f max_width).
Local Abbreviation fits s := ((textlength s f <=? max_width) = true).

Lemma img_wrap_loop_Forall (P : str -> Prop) (words lines : list str)
    (ln : str) :
  Forall P lines -> P ln -> Forall P words ->
  (forall cur w, In w words -> P cur -> fits (strip (cur ++ space :: w)) ->
                 P (strip (cur ++ space :: w))) ->
  Forall P (fst (wrap_loop words lines ln)) /\ P (snd (wrap_loop words lines ln)).
Proof.
  revert lines ln.
  induction words as [|w rest IH]; intros lines ln Hl Hc Hw Hstep.
  - now split.
  - cbn [Imagegen.wrap_loop]. inversion Hw as [|? ? Hword Hrest]; subst.
    destruct (textlength _ _ <=? max_width) eqn:Hfit.
    + apply IH; try assumption.
      * apply Hstep; [now left|assumption|exact Hfit].
      * intros cur w' Hin. apply Hstep. now right.
    + apply IH; try assumption.
      * apply Forall_app. split; [exact Hl|]. now constructor.
      * intros cur w' Hin. apply Hstep. now right.
Qed.

Lemma img_wrap_loop_tokens (words lines : list str) (ln : str) :
  Forall (fun w => is_token w = true) words ->
  flat_map split (fst (wrap_loop words lines ln))
    ++ split (snd (wrap_loop words lines ln))
  = flat_map split lines ++ split ln ++ words.
Proof.
  revert lines ln.
  induction words as [|w rest IH]; intros lines ln Hw.
  - cbn. now rewrite app_nil_r.
  - inversion Hw as [|? ? Hword Hrest]; subst. cbn [Imagegen.wrap_loop].
    destruct (textlength _ _ <=? max_width).
    + rewrite IH by assumption. rewrite split_strip.
      rewrite split_app_space by apply isspace_space.
      rewrite (split_token w) by assumption. now rewrite <- app_assoc.
    + rewrite IH by assumption. rewrite flat_map_app. cbn.
      rewrite app_nil_r, (split_token w) by assumption.
      now rewrite <- !app_assoc.
Qed.

Lemma img_wrap_text_tokens (t : str) :
  flat_map split (wrap_text t) = split t.
Proof.
  cbv beta. unfold Imagegen.wrap_text.
  pose proof (img_wrap_loop_tokens (split t) [] [] (split_tokens t)) as H.
  destruct (Imagegen.wrap_loop _ _ _ _ _ _) as [lines ln].
  cbn [fst snd] in H. cbn in H.
  destruct ln as [|ch ln']; cbn [truthy].
  - cbn in H. now rewrite app_nil_r in H.
  - rewrite flat_map_app. cbn. now rewrite app_nil_r.
Qed.

(** Every line is within the width or is one token of the text, provided
    the empty string is within the width. *)
Lemma img_wrap_text_width (t : str) :
  fits [] ->
  Forall (fun l => fits l \/ In l (split t)) (wrap_text t).
Proof.
  intros Hempty. cbv beta. unfold Imagegen.wrap_text.
  destruct (img_wrap_loop_Forall (fun l => fits l \/ In l (split t))
              (split t) [] []) as [Hlines Hline].
  - constructor.
  - now left.
  - apply List.Forall_forall. intros w Hin. now right.
  - intros cur w _ _ Hfit. now left.
  - destruct (Imagegen.wrap_loop _ _ _ _ _ _) as [lines ln].
    cbn [fst snd] in *. destruct (truthy ln); [|exact Hlines].
    apply Forall_app. split; [exact Hlines|]. now constructor.
Qed.

(** A text without a token gives no line at all. *)
Lemma img_wrap_text_blank (t : str) : split t = [] -> wrap_text t = [].
Proof. cbv beta. unfold Imagegen.wrap_text. now intros ->. Qed.

End ImagegenWrapFacts.

Section ImagegenFlowFacts.
Import PyStr Imagegen.

Lemma mark_lines_succ (i : nat) (wrapped : list str) :
  mark_lines (S i) wrapped = map (app blank_marker) wrapped.
Proof.
  revert i. induction wrapped as [|wl rest IH]; intros i; [reflexivity|].
  cbn [mark_lines map Nat.eqb]. now rewrite IH.
Qed.

Lemma mark_lines_zero (first : str) (others : list str) :
  mark_lines 0 (first :: others)
  = (bullet_marker ++ first) :: map (app blank_marker) others.
Proof. cbn [mark_lines Nat.eqb]. now rewrite mark_lines_succ. Qed.

End ImagegenFlowFacts.

(** ** What the drawing functions add to the canvas *)

Section PdfCanvasFacts.
Import PyStr Pdf.
Local Open Scope float_scope.

Variable stringWidth : str -> string -> float -> float.

Lemma extends_refl (c0 : canvas) : extends c0 c0.
Proof. repeat split. exists []. now rewrite app_nil_r. Qed.

Lemma extends_trans (c0 c1 c2 : canvas) :
  extends c0 c1 -> extends c1 c2 -> extends c0 c2.
Proof.
  intros (Hf1 & Hp1 & m1 & Ho1) (Hf2 & Hp2 & m2 & Ho2).
  repeat split; [congruence|congruence|].
  exists (m1 ++ m2). now rewrite Ho2, Ho1, <- app_assoc.
Qed.

Lemma extends_emit (c0 : canvas) (o : op) : extends c0 (emit c0 o).
Proof. repeat split. now exists [o]. Qed.

(** Closes [extends c0 (emit (... (emit c0 o1) ...) on)]. *)
Ltac emitted :=
  repeat (eapply extends_trans; [|apply extends_emit]); apply extends_refl.

(** [draw_lines] adds one [drawString] per line, all at the same [x]. *)
Lemma draw_lines_ops (lines : list str) (c0 : canvas) (x y leading : float) :
  exists conts,
    ops (fst (draw_lines c0 x y leading lines)) = ops c0 ++ conts
    /\ Forall2 (fun o l => exists y', o = drawString x y' l) conts lines
    /\ filename (fst (draw_lines c0 x y leading lines)) = filename c0
    /\ pagesize (fst (draw_lines c0 x y leading lines)) = pagesize c0.
Proof.
  revert c0 y. induction lines as [|ln rest IH]; intros c0 y.
  - exists []. cbn. rewrite app_nil_r. repeat split. constructor.
  - cbn [draw_lines].
    destruct (IH (emit c0 (drawString x y ln)) (y - leading))
      as (conts & Hops & Hall & Hf & Hp).
    exists (drawString x y ln :: conts). rewrite Hops, Hf, Hp. cbn.
    rewrite <- app_assoc. repeat split. constructor; eauto.
Qed.

Lemma draw_lines_extends (lines : list str) (c0 : canvas)
    (x y leading : float) :
  extends c0 (fst (draw_lines c0 x y leading lines)).
Proof.
  destruct (draw_lines_ops lines c0 x y leading) as (conts & Ho & _ & Hf & Hp).
  repeat split; eauto.
Qed.

Lemma draw_paragraph_extends (c0 : canvas) (t : str) (x y width : float)
    (font_name : string) (font_size leading : float) :
  extends c0
    (fst (draw_paragraph stringWidth c0 t x y width font_name font_size leading)).
Proof.
  unfold draw_paragraph.
  eapply extends_trans; [apply extends_emit|apply draw_lines_extends].
Qed.

(** [draw_bullet] sets the font, paints the marker once at [x] and every
    wrapped line at [x + bullet_width]. *)
Lemma draw_bullet_ops (c0 : canvas) (t : str) (x y width : float)
    (font_name : string) (font_size leading : float) :
  let bullet_width := stringWidth (lit "- ") font_name font_size in
  let c1 := fst (draw_bullet stringWidth c0 t x y width font_name font_size
                   leading) in
  exists first others conts,
    wrap_text stringWidth t font_name font_size (width - bullet_width)
    = first :: others
    /\ ops c1 = ops c0 ++ setFont font_name font_size
                  :: drawString x y (lit "- ")
                  :: drawString (x + bullet_width) y first :: conts
    /\ Forall2 (fun o l => exists y', o = drawString (x + bullet_width) y' l)
         conts others
    /\ filename c1 = filename c0 /\ pagesize c1 = pagesize c0.
Proof.
  cbv zeta. unfold draw_bullet.
  destruct (pdf_wrap_text_cons stringWidth font_name font_size
              (width - stringWidth (lit "- ") font_name font_size) t)
    as (first & others & Hw).
  cbv beta in Hw. rewrite Hw. exists first, others.
  match goal with
  | |- context [draw_lines ?c ?x ?y ?l others] =>
      destruct (draw_lines_ops others c x y l) as (conts & Ho & Hall & Hf & Hp)
  end.
  exists conts. rewrite Ho, Hf, Hp. cbn. rewrite <- !app_assoc. now cbn.
Qed.

Lemma draw_bullet_extends (c0 : canvas) (t : str) (x y width : float)
    (font_name : string) (font_size leading : float) :
  extends c0
    (fst (draw_bullet stringWidth c0 t x y width font_name font_size leading)).
Proof.
  destruct (draw_bullet_ops c0 t x y width font_name font_size leading)
    as (first & others & conts & _ & Ho & _ & Hf & Hp).
  repeat split; eauto.
Qed.

Lemma line_loop_extends (lines : list str) (as_bullets : bool)
    (margin content_width body_size body_leading : float)
    (c0 : canvas) (y : float) :
  extends c0
    (fst (line_loop stringWidth margin content_width body_size body_leading
            as_bullets lines c0 y)).
Proof.
  revert c0 y. induction lines as [|ln rest IH]; intros c0 y.
  - apply extends_refl.
  - cbn [line_loop]. destruct as_bullets.
    + pose proof (draw_bullet_extends c0 ln margin y content_width
                    "Helvetica" body_size body_leading) as H.
      destruct (draw_bullet _ _ _ _ _ _ _ _ _) as [c1 y1].
      eapply extends_trans; [exact H|apply IH].
    + pose proof (draw_paragraph_extends c0 ln margin y content_width
                    "Helvetica" body_size body_leading) as H.
      destruct (draw_paragraph _ _ _ _ _ _ _ _ _) as [c1 y1].
      eapply extends_trans; [exact H|apply IH].
Qed.

Lemma draw_one_section_extends
    (margin content_width heading_size heading_leading body_size body_leading
       section_gap : float) (sec : section) (c0 : canvas) (y : float) :
  extends c0
    (fst (draw_one_section stringWidth margin content_width heading_size
            heading_leading body_size body_leading section_gap sec c0 y)).
Proof.
  unfold draw_one_section. destruct sec as [[section_title lines] as_bullets].
  match goal with
  | |- context [line_loop _ ?m ?w ?s ?l ?b ?ls ?c ?y] =>
      pose proof (line_loop_extends ls b m w s l c y) as H;
      destruct (line_loop stringWidth m w s l b ls c y) as [c1 y1]
  end.
  cbn [fst] in *. eapply extends_trans; [|exact H]. emitted.
Qed.

Lemma section_loop_extends
    (margin content_width heading_size heading_leading body_size body_leading
       section_gap : float) (secs : list section) (c0 : canvas) (y : float) :
  extends c0
    (c (section_loop stringWidth margin content_width heading_size
          heading_leading body_size body_leading section_gap secs c0 y)).
Proof.
  revert c0 y. induction secs as [|sec rest IH]; intros c0 y.
  - apply extends_refl.
  - cbn [section_loop].
    pose proof (draw_one_section_extends margin content_width heading_size
                  heading_leading body_size body_leading section_gap sec c0 y)
      as H.
    destruct (draw_one_section _ _ _ _ _ _ _ _ _ _ _) as [c1 y1].
    cbn [fst] in H. destruct (y1 <? margin + 8).
    + exact H.
    + eapply extends_trans; [exact H|apply IH].
Qed.

End PdfCanvasFacts.

(** ** The section loop and the scale loop *)

Section PdfDriverFacts.
Import PyStr Pdf.
Local Open Scope float_scope.

Variable stringWidth : str -> string -> float -> float.
Variables (inp : inputs) (output_path : string).

Local Abbreviation attempt := (Pdf.attempt stringWidth inp output_path).
Local Abbreviation scale_loop := (Pdf.scale_loop stringWidth inp output_path).

Lemma attempt_canvas (scale : float) (prev : option frame) :
  extends (Canvas output_path (letter inp) (title_block inp scale))
    (c (attempt scale prev)).
Proof.
  unfold Pdf.attempt, Pdf.title_block. destruct (letter inp) as [width height].
  apply section_loop_extends.
Qed.

Lemma attempt_filename (scale : float) (prev : option frame) :
  filename (c (attempt scale prev)) = output_path.
Proof. now destruct (attempt_canvas scale prev) as (-> & _). Qed.

(** What the scale loop leaves in the file system: the canvas of the frame
    it exits with, unless there was no candidate at all. *)
Lemma scale_loop_saved (candidates : list float) (prev : option frame)
    (fs : gmap string canvas) :
  candidates <> [] ->
  exists fr,
    fst (scale_loop candidates prev fs) = Some fr
    /\ snd (scale_loop candidates prev fs) = <[output_path := c fr]> fs
    /\ exists scale, In scale candidates /\ fr = attempt scale None.
Proof.
  revert prev fs.
  induction candidates as [|scale rest IH]; intros prev fs Hne;
    [contradiction|].
  cbn [Pdf.scale_loop]. unfold save. rewrite attempt_filename.
  destruct (overflow (attempt scale prev)) eqn:Hov; cbn [negb].
  - destruct rest as [|scale' rest'].
    + cbn. exists (attempt scale prev). repeat split.
      exists scale. split; [now left|reflexivity].
    + destruct (IH (Some (attempt scale prev))
                  (<[output_path := c (attempt scale prev)]> fs))
        as (fr & Hfr & Hfs & s & Hin & Hs); [discriminate|].
      exists fr. rewrite Hfr, Hfs. repeat split.
      * apply insert_insert_eq.
      * exists s. split; [now right|exact Hs].
  - cbn. exists (attempt scale prev). repeat split.
    exists scale. split; [now left|reflexivity].
Qed.

(** The loop stops at the first candidate that does not overflow. *)
Lemma scale_loop_first_fit (before after : list float) (scale : float)
    (prev : option frame) (fs : gmap string canvas) :
  Forall (fun s => overflow (attempt s None) = true) before ->
  overflow (attempt scale None) = false ->
  scale_loop (before ++ scale :: after) prev fs
  = (Some (attempt scale None), <[output_path := c (attempt scale None)]> fs).
Proof.
  revert prev fs.
  induction before as [|s rest IH]; intros prev fs Hbefore Hfit.
  - cbn [app Pdf.scale_loop].
    change (Pdf.attempt stringWidth inp output_path scale prev)
      with (attempt scale None).
    rewrite Hfit. cbn [negb]. unfold save. now rewrite attempt_filename.
  - inversion Hbefore as [|? ? Hs Hrest]; subst.
    cbn [app Pdf.scale_loop].
    change (Pdf.attempt stringWidth inp output_path s prev)
      with (attempt s None).
    rewrite Hs. cbn [negb]. rewrite IH by assumption.
    unfold save. rewrite attempt_filename. f_equal. apply insert_insert_eq.
Qed.

(** When every candidate overflows the loop runs to its end and the last
    attempt is the one that stays. *)
Lemma scale_loop_all_overflow (candidates : list float) (smallest : float)
    (prev : option frame) (fs : gmap string canvas) :
  Forall (fun s => overflow (attempt s None) = true)
    (candidates ++ [smallest]) ->
  scale_loop (candidates ++ [smallest]) prev fs
  = (Some (attempt smallest None),
     <[output_path := c (attempt smallest None)]> fs).
Proof.
  revert prev fs.
  induction candidates as [|s rest IH]; intros prev fs Hall;
    inversion Hall as [|? ? Hs Hrest]; subst; cbn [app Pdf.scale_loop].
  - change (Pdf.attempt stringWidth inp output_path smallest prev)
      with (attempt smallest None).
    rewrite Hs. cbn. unfold save. now rewrite attempt_filename.
  - change (Pdf.attempt stringWidth inp output_path s prev)
      with (attempt s None).
    rewrite Hs. cbn [negb]. rewrite IH by assumption.
    unfold save. rewrite attempt_filename. f_equal. apply insert_insert_eq.
Qed.

(** The frame the loop exits with does not depend on the file system. *)
Lemma scale_loop_frame_fs (candidates : list float) (prev : option frame)
    (fs fs' : gmap string canvas) :
  fst (scale_loop candidates prev fs) = fst (scale_loop candidates prev fs').
Proof.
  revert prev fs fs'. induction candidates as [|scale rest IH];
    intros prev fs fs'; [reflexivity|].
  cbn [Pdf.scale_loop]. destruct (negb _); [reflexivity|apply IH].
Qed.

End PdfDriverFacts.

(** ** Bullet markers on the canvas *)

Section PdfBulletFacts.
Import PyStr Pdf.
Local Open Scope float_scope.

Variable stringWidth : str -> string -> float -> float.

(** A wrapped line is never the marker text: it does not end with a
    space. *)
Lemma line_not_marker (l : str) :
  l = [] \/ (exists pre ch, l = pre ++ [ch] /\ isspace ch = false) ->
  l <> lit "- ".
Proof.
  intros [->|(pre & ch & -> & Hch)] Heq; [discriminate|].
  change (lit "- ") with ([45%N] ++ [space]) in Heq.
  apply app_inj_tail in Heq as [_ ->]. discriminate.
Qed.

Lemma count_markers_app (l1 l2 : list op) :
  count_markers (l1 ++ l2) = (count_markers l1 + count_markers l2)%nat.
Proof. unfold count_markers. now rewrite List.filter_app, length_app. Qed.

Lemma count_markers_lines (x : float) (conts : list op) (lines : list str) :
  Forall2 (fun o l => exists y', o = drawString x y' l) conts lines ->
  Forall (fun l => l <> lit "- ") lines ->
  count_markers conts = 0%nat.
Proof.
  induction 1 as [|o l conts lines [y' ->] _ IH]; intros Hall;
    [reflexivity|].
  inversion Hall as [|? ? Hl Hrest]; subst.
  unfold count_markers in *. cbn [List.filter is_marker].
  rewrite bool_decide_eq_false_2 by exact Hl. now apply IH.
Qed.

(** One run of a bulleted section paints exactly one marker. *)
Lemma draw_bullet_one_marker (c0 : canvas) (t : str) (x y width : float)
    (font_name : string) (font_size leading : float) :
  exists emitted,
    ops (fst (draw_bullet stringWidth c0 t x y width font_name font_size
                leading)) = ops c0 ++ emitted
    /\ count_markers emitted = 1%nat.
Proof.
  destruct (draw_bullet_ops stringWidth c0 t x y width font_name font_size
              leading) as (first & others & conts & Hw & Ho & Hall & _ & _).
  eexists. split; [exact Ho|].
  pose proof (pdf_wrap_text_last stringWidth font_name font_size
                (width - stringWidth (lit "- ") font_name font_size) t) as Hl.
  cbv beta in Hl. rewrite Hw in Hl.
  inversion Hl as [|? ? Hfirst Hothers]; subst.
  unfold count_markers. cbn [List.filter is_marker].
  rewrite bool_decide_eq_true_2 by reflexivity.
  rewrite bool_decide_eq_false_2 by now apply line_not_marker.
  cbn [length]. f_equal.
  apply (count_markers_lines _ _ _ Hall).
  eapply List.Forall_impl; [|exact Hothers]. apply line_not_marker.
Qed.

(** A bulleted section paints as many markers as it has runs. *)
Lemma line_loop_markers (runs : list str)
    (margin content_width body_size body_leading : float)
    (c0 : canvas) (y : float) :
  exists emitted,
    ops (fst (line_loop stringWidth margin content_width body_size
                body_leading true runs c0 y)) = ops c0 ++ emitted
    /\ count_markers emitted = length runs.
Proof.
  revert c0 y. induction runs as [|run rest IH]; intros c0 y.
  - exists []. cbn. now rewrite app_nil_r.
  - cbn [line_loop].
    destruct (draw_bullet_one_marker c0 run margin y content_width
                "Helvetica" body_size body_leading) as (e1 & Ho1 & Hc1).
    destruct (draw_bullet _ _ _ _ _ _ _ _ _) as [c1 y1]. cbn [fst] in Ho1.
    destruct (IH c1 y1) as (e2 & Ho2 & Hc2).
    exists (e1 ++ e2). rewrite Ho2, Ho1, <- app_assoc. split; [reflexivity|].
    rewrite count_markers_app, Hc1, Hc2. reflexivity.
Qed.

End PdfBulletFacts.

(** ** The layout depends on the metrics only through their values *)

Section PdfMetricsFacts.
Import PyStr Pdf.
Local Open Scope float_scope.

Variables sw1 sw2 : str -> string -> float -> float.
Hypothesis same_widths : forall t font_name font_size,
  sw1 t font_name font_size = sw2 t font_name font_size.

Lemma wrap_loop_ext (font_name : string) (font_size width : float)
    (words lines : list str) (current : str) :
  wrap_loop sw1 font_name font_size width words lines current
  = wrap_loop sw2 font_name font_size width words lines current.
Proof using same_widths.
  revert lines current. induction words as [|word rest IH];
    intros lines current; [reflexivity|].
  cbn [wrap_loop]. rewrite same_widths, !IH. reflexivity.
Qed.

Lemma wrap_text_ext (t : str) (font_name : string) (font_size width : float) :
  wrap_text sw1 t font_name font_size width
  = wrap_text sw2 t font_name font_size width.
Proof using same_widths.
  unfold wrap_text. destruct (split t); [reflexivity|apply wrap_loop_ext].
Qed.

Lemma draw_paragraph_ext (c0 : canvas) (t : str) (x y width : float)
    (font_name : string) (font_size leading : float) :
  draw_paragraph sw1 c0 t x y width font_name font_size leading
  = draw_paragraph sw2 c0 t x y width font_name font_size leading.
Proof using same_widths. unfold draw_paragraph. now rewrite wrap_text_ext. Qed.

Lemma draw_bullet_ext (c0 : canvas) (t : str) (x y width : float)
    (font_name : string) (font_size leading : float) :
  draw_bullet sw1 c0 t x y width font_name font_size leading
  = draw_bullet sw2 c0 t x y width font_name font_size leading.
Proof using same_widths.
  unfold draw_bullet. now rewrite wrap_text_ext, same_widths.
Qed.

Lemma line_loop_ext (margin content_width body_size body_leading : float)
    (as_bullets : bool) (lines : list str) (c0 : canvas) (y : float) :
  line_loop sw1 margin content_width body_size body_leading as_bullets lines
    c0 y
  = line_loop sw2 margin content_width body_size body_leading as_bullets
      lines c0 y.
Proof using same_widths.
  revert c0 y. induction lines as [|ln rest IH]; intros c0 y; [reflexivity|].
  cbn [line_loop]. rewrite draw_bullet_ext, draw_paragraph_ext.
  destruct as_bullets;
    [destruct (draw_bullet _ _ _ _ _ _ _ _ _)
    |destruct (draw_paragraph _ _ _ _ _ _ _ _ _)]; apply IH.
Qed.

Lemma section_loop_ext
    (margin content_width heading_size heading_leading body_size body_leading
       section_gap : float) (secs : list section) (c0 : canvas) (y : float) :
  section_loop sw1 margin content_width heading_size heading_leading
    body_size body_leading section_gap secs c0 y
  = section_loop sw2 margin content_width heading_size heading_leading
      body_size body_leading section_gap secs c0 y.
Proof using same_widths.
  revert c0 y. induction secs as [|sec rest IH]; intros c0 y; [reflexivity|].
  cbn [section_loop]. unfold draw_one_section.
  destruct sec as [[section_title lines] as_bullets].
  rewrite line_loop_ext. destruct (line_loop _ _ _ _ _ _ _ _ _) as [c1 y1].
  destruct (_ <? _); [reflexivity|apply IH].
Qed.

Lemma attempt_ext (inp : inputs) (output_path : string) (scale : float)
    (prev : option frame) :
  attempt sw1 inp output_path scale prev
  = attempt sw2 inp output_path scale prev.
Proof using same_widths.
  unfold attempt. destruct (letter inp). apply section_loop_ext.
Qed.

Lemma scale_loop_ext (inp : inputs) (output_path : string)
    (candidates : list float) (prev : option frame)
    (fs : gmap string canvas) :
  scale_loop sw1 inp output_path candidates prev fs
  = scale_loop sw2 inp output_path candidates prev fs.
Proof using same_widths.
  revert prev fs. induction candidates as [|scale rest IH]; intros prev fs;
    [reflexivity|].
  cbn [scale_loop]. rewrite attempt_ext, IH. reflexivity.
Qed.

End PdfMetricsFacts.

(** ** The scale-fit driver: which candidate is kept *)

Section DriverClaims.
Import PyStr Pdf.
Local Open Scope float_scope.

(** C1, as stated, fails on the tight page: at scale 1.0 the whole layout
    is within [pageHeight - margin], whether the height is counted from
    the top of the page (178 of 182) or from the top margin (130 of 182),
    yet the cursor ends at 52, below [margin + 8] = 56; the driver moves
    on and keeps the layout at scale 0.5, which is another layout. *)
Lemma fit_criterion_counterexample :
  let at_scale s :=
    attempt Sample.stringWidth Sample.tight_page Sample.output_path s None in
  (230 - y (at_scale 1.0) <=? 230 - 48) = true
  /\ ((230 - 48) - y (at_scale 1.0) <=? 230 - 48) = true
  /\ snd (build_single_page_pdf_with Sample.stringWidth Sample.tight_page
            Sample.output_path ∅) !! Sample.output_path
     = Some (c (at_scale 0.5))
  /\ nth_error (ops (c (at_scale 1.0))) 2 = Some (setFont "Helvetica-Bold" 24)
  /\ nth_error (ops (c (at_scale 0.5))) 2 = Some (setFont "Helvetica-Bold" 12).
Proof.
  cbv zeta. repeat apply conj; vm_compute; reflexivity.
Qed.

(** C4, as the code has it: when every candidate overflows the driver
    still terminates normally; the overflow flag is set in its locals at
    exit, the file at the output path is the layout drawn at the last
    candidate, and the value returned is [None], as on the other exit. *)
Theorem overflow_keeps_smallest_scale
    (stringWidth : str -> string -> float -> float) (inp : inputs)
    (output_path : string) (fs : gmap string canvas)
    (candidates : list float) (smallest : float) :
  scales inp = candidates ++ [smallest] ->
  Forall (fun s => overflow (attempt stringWidth inp output_path s None) = true)
    (scales inp) ->
  build_single_page_pdf_with stringWidth inp output_path fs
  = (tt, <[output_path :=
             c (attempt stringWidth inp output_path smallest None)]> fs)
  /\ exists fr,
       fst (scale_loop stringWidth inp output_path (scales inp) None fs)
       = Some fr
       /\ fr = attempt stringWidth inp output_path smallest None
       /\ overflow fr = true.
Proof.
  intros Hscales Hall. unfold build_single_page_pdf_with.
  rewrite Hscales in *. rewrite scale_loop_all_overflow by assumption.
  split; [reflexivity|]. eexists. repeat split.
  apply Forall_app in Hall as [_ Hlast]. now inversion Hlast.
Qed.

Lemma overflow_keeps_smallest_scale_witness :
  build_single_page_pdf_with Sample.stringWidth Sample.overfull_page
    Sample.output_path ∅
  = (tt, <[Sample.output_path :=
             c (attempt Sample.stringWidth Sample.overfull_page
                  Sample.output_path 0.5 None)]> ∅)
  /\ exists fr,
       fst (scale_loop Sample.stringWidth Sample.overfull_page
              Sample.output_path (scales Sample.overfull_page) None ∅)
       = Some fr
       /\ fr = attempt Sample.stringWidth Sample.overfull_page
                 Sample.output_path 0.5 None
       /\ overflow fr = true.
Proof.
  apply (overflow_keeps_smallest_scale Sample.stringWidth
           Sample.overfull_page Sample.output_path ∅ [1.0] 0.5).
  - reflexivity.
  - constructor; [vm_compute; reflexivity|].
    constructor; [vm_compute; reflexivity|constructor].
Defined.

(** C4, as stated, fails: no fit flag comes back.  On the overfull page no
    candidate fits and on the tight page one does, yet the driver returns
    the same value on both, so nothing computed from the returned value
    tells the two apart. *)
Lemma no_fit_flag_counterexample :
  let run inp :=
    build_single_page_pdf_with Sample.stringWidth inp Sample.output_path ∅ in
  let exit_frame inp :=
    fst (scale_loop Sample.stringWidth inp Sample.output_path (scales inp)
           None ∅) in
  (overflow <$> exit_frame Sample.overfull_page) = Some true
  /\ (overflow <$> exit_frame Sample.tight_page) = Some false
  /\ fst (run Sample.overfull_page) = fst (run Sample.tight_page)
  /\ ~ exists fit_achieved : unit -> bool,
         fit_achieved (fst (run Sample.overfull_page)) = false
         /\ fit_achieved (fst (run Sample.tight_page)) = true.
Proof.
  cbv zeta. repeat apply conj; try (vm_compute; reflexivity).
  intros (fit_achieved & Hno & Hyes). cbn [fst build_single_page_pdf_with] in *.
  congruence.
Qed.

(** C8: the driver is a function of its inputs and of the values of the
    width measurement.  Two metrics that agree everywhere give the same
    result; the layout chosen does not depend on what the file system
    held; and a second call leaves the file system as the first one
    did. *)
Theorem build_deterministic
    (sw1 sw2 : str -> string -> float -> float) (inp : inputs)
    (output_path : string) (fs fs' : gmap string canvas) :
  (forall t font_name font_size,
      sw1 t font_name font_size = sw2 t font_name font_size) ->
  build_single_page_pdf_with sw1 inp output_path fs
  = build_single_page_pdf_with sw2 inp output_path fs
  /\ fst (scale_loop sw1 inp output_path (scales inp) None fs)
     = fst (scale_loop sw2 inp output_path (scales inp) None fs')
  /\ snd (build_single_page_pdf_with sw2 inp output_path
            (snd (build_single_page_pdf_with sw1 inp output_path fs)))
     = snd (build_single_page_pdf_with sw1 inp output_path fs).
Proof.
  intros Hsame. unfold build_single_page_pdf_with. cbn [snd].
  rewrite !(scale_loop_ext sw1 sw2 Hsame). split; [reflexivity|].
  split; [apply scale_loop_frame_fs|].
  destruct (scales inp) as [|scale0 rest] eqn:Hscales; [reflexivity|].
  destruct (scale_loop_saved sw2 inp output_path (scale0 :: rest) None fs)
    as (fr & Hfr & Hfs & _); [discriminate|].
  destruct (scale_loop_saved sw2 inp output_path (scale0 :: rest) None
              (snd (scale_loop sw2 inp output_path (scale0 :: rest) None fs)))
    as (fr2 & Hfr2 & Hfs2 & _); [discriminate|].
  rewrite (scale_loop_frame_fs sw2 inp output_path _ _ _ fs) in Hfr2.
  rewrite Hfr in Hfr2. injection Hfr2 as <-.
  rewrite Hfs2, Hfs. apply insert_insert_eq.
Qed.

Lemma build_deterministic_witness :
  snd (build_single_page_pdf_with Sample.stringWidth Sample.tight_page
         Sample.output_path
         (snd (build_single_page_pdf_with Sample.stringWidth
                 Sample.tight_page Sample.output_path ∅)))
  = snd (build_single_page_pdf_with Sample.stringWidth Sample.tight_page
           Sample.output_path ∅).
Proof.
  apply (build_deterministic Sample.stringWidth Sample.stringWidth
           Sample.tight_page Sample.output_path ∅ ∅).
  intros t font_name font_size. reflexivity.
Defined.

End DriverClaims.

(** ** The word wrappers and the bullet flow *)

Section WrapClaims.
Import PyStr.
Local Open Scope float_scope.

Variable stringWidth : str -> string -> float -> float.
Variable textlength : str -> Imagegen.font -> float.

(** C2, as the code has it: when the empty string measures at most the
    width, every line of either wrapper is within the width as soon as
    every token of the text is, and in any case a line that exceeds the
    width is one token of the text. *)
Theorem wrapped_lines_within_width (t : str) (font_name : string)
    (font_size width : float) (f : Imagegen.font) (max_width : float) :
  (stringWidth [] font_name font_size <=? width) = true ->
  (textlength [] f <=? max_width) = true ->
  let pdf_fits l := (stringWidth l font_name font_size <=? width) in
  let img_fits l := (textlength l f <=? max_width) in
  let pdf_lines := Pdf.wrap_text stringWidth t font_name font_size width in
  let img_lines := Imagegen.wrap_text textlength t f max_width in
  (Forall (fun w => pdf_fits w = true) (split t) ->
   Forall (fun l => pdf_fits l = true) pdf_lines)
  /\ Forall (fun l => pdf_fits l = true \/ (In l (split t) /\ pdf_fits l = false))
       pdf_lines
  /\ (Forall (fun w => img_fits w = true) (split t) ->
      Forall (fun l => img_fits l = true) img_lines)
  /\ Forall (fun l => img_fits l = true \/ (In l (split t) /\ img_fits l = false))
       img_lines.
Proof.
  intros Hpdf Himg. cbv zeta.
  pose proof (pdf_wrap_text_width stringWidth font_name font_size width t Hpdf)
    as Hp.
  pose proof (img_wrap_text_width textlength f max_width t Himg) as Hi.
  cbv beta in Hp, Hi. rewrite List.Forall_forall in Hp, Hi.
  repeat apply conj.
  - intros Htok. rewrite List.Forall_forall in Htok.
    apply List.Forall_forall. intros l Hl.
    destruct (Hp l Hl) as [Hfit|Hin]; [exact Hfit|now apply Htok].
  - apply List.Forall_forall. intros l Hl.
    destruct (stringWidth l font_name font_size <=? width) eqn:Hw;
      [now left|right].
    destruct (Hp l Hl) as [Hfit|Hin]; [congruence|now split].
  - intros Htok. rewrite List.Forall_forall in Htok.
    apply List.Forall_forall. intros l Hl.
    destruct (Hi l Hl) as [Hfit|Hin]; [exact Hfit|now apply Htok].
  - apply List.Forall_forall. intros l Hl.
    destruct (textlength l f <=? max_width) eqn:Hw; [now left|right].
    destruct (Hi l Hl) as [Hfit|Hin]; [congruence|now split].
Qed.

(** C3: the tokens of the lines, taken line by line, are the tokens of
    the text, for both wrappers. *)
Theorem wrap_preserves_tokens (t : str) (font_name : string)
    (font_size width : float) (f : Imagegen.font) (max_width : float) :
  flat_map split (Pdf.wrap_text stringWidth t font_name font_size width)
  = split t
  /\ flat_map split (Imagegen.wrap_text textlength t f max_width) = split t.
Proof.
  split.
  - apply (pdf_wrap_text_tokens stringWidth font_name font_size width t).
  - apply (img_wrap_text_tokens textlength f max_width t).
Qed.

(** C5, as the code has it: on the empty string the wrapper of the vector
    variant returns one line, the empty string, and the wrapper of the
    raster variant returns no line. *)
Theorem wrap_empty_text (font_name : string) (font_size width : float)
    (f : Imagegen.font) (max_width : float) :
  Pdf.wrap_text stringWidth [] font_name font_size width = [[]]
  /\ Imagegen.wrap_text textlength [] f max_width = [].
Proof. split; reflexivity. Qed.

(** C9, as the code has it: for a text with at least one token, no line
    of the vector variant's wrapper is empty and the first line begins
    with the first token, whatever that token measures. *)
Theorem pdf_wrap_no_empty_line (t : str) (font_name : string)
    (font_size width : float) (first : str) (others : list str) :
  split t = first :: others ->
  Forall (fun l => l <> [])
    (Pdf.wrap_text stringWidth t font_name font_size width)
  /\ first <> []
  /\ exists more tail,
       Pdf.wrap_text stringWidth t font_name font_size width
       = (first ++ more) :: tail.
Proof.
  intros Hsplit. repeat apply conj.
  - apply (pdf_wrap_text_nonempty stringWidth font_name font_size width t).
    now rewrite Hsplit.
  - pose proof (split_tokens t) as Htok. rewrite Hsplit in Htok.
    inversion Htok as [|? ? Hfirst _]; subst. intros ->. discriminate.
  - unfold Pdf.wrap_text. rewrite Hsplit. apply pdf_wrap_loop_head.
Qed.

End WrapClaims.

Section WrapExamples.
Import PyStr.
Local Open Scope float_scope.

Lemma wrapped_lines_within_width_witness :
  Forall (fun l => (Sample.stringWidth l "Helvetica" 2 <=? 5) = true)
    (Pdf.wrap_text Sample.stringWidth (lit "aa bb cc dd") "Helvetica" 2 5).
Proof.
  apply (wrapped_lines_within_width Sample.stringWidth Sample.textlength
           (lit "aa bb cc dd") "Helvetica" 2 5 Imagegen.body_font 50).
  - vm_compute; reflexivity.
  - vm_compute; reflexivity.
  - repeat (constructor; [vm_compute; reflexivity|]). constructor.
Defined.

(** C2, as stated, fails where the empty string is wider than the limit,
    here a limit of -1.  The vector variant returns the empty line for a
    text without tokens, so the premise on the tokens holds and the line
    exceeds the limit; the raster variant puts an empty line before a
    first token that is too wide, and that line is no token. *)
Lemma width_bound_counterexample :
  split [] = []
  /\ Pdf.wrap_text Sample.stringWidth [] "Helvetica" 10 (-1) = [[]]
  /\ (Sample.stringWidth [] "Helvetica" 10 <=? -1) = false
  /\ split (lit "ab") = [lit "ab"]
  /\ Imagegen.wrap_text Sample.textlength (lit "ab") Imagegen.body_font (-1)
     = [[]; lit "ab"]
  /\ (Sample.textlength [] Imagegen.body_font <=? -1) = false.
Proof. repeat apply conj; vm_compute; reflexivity. Qed.

(** C5, as stated, fails for the raster variant: no line comes back for
    the empty string. *)
Lemma raster_wrap_empty_counterexample :
  Imagegen.wrap_text Sample.textlength [] Imagegen.body_font 100 = []
  /\ length (Imagegen.wrap_text Sample.textlength [] Imagegen.body_font 100)
     = 0%nat.
Proof. split; reflexivity. Qed.

Lemma pdf_wrap_no_empty_line_witness :
  exists more tail,
    Pdf.wrap_text Sample.stringWidth (lit "aaaaaaaaa bb") "Helvetica" 2 5
    = (lit "aaaaaaaaa" ++ more) :: tail.
Proof.
  apply (pdf_wrap_no_empty_line Sample.stringWidth (lit "aaaaaaaaa bb")
           "Helvetica" 2 5 (lit "aaaaaaaaa") [lit "bb"]).
  vm_compute; reflexivity.
Defined.

(** C9, as stated, fails on a text that is not empty but holds no token:
    for a single space the wrapper returns the empty line. *)
Lemma blank_text_counterexample :
  length (lit " ") = 1%nat
  /\ Pdf.wrap_text Sample.stringWidth (lit " ") "Helvetica" 10 100 = [[]].
Proof. split; vm_compute; reflexivity. Qed.

End WrapExamples.

Section FlowClaims.
Import PyStr.
Local Open Scope float_scope.

Variable stringWidth : str -> string -> float -> float.
Variable textlength : str -> Imagegen.font -> float.

(** C6, as the code has it.  In the vector variant a run of a bulleted
    section is wrapped against the width less the measured width of the
    marker, the marker is painted once, at [x] on the first line, every
    wrapped line, the first and the continuations, is painted at [x] plus
    the marker's width, and a section paints as many markers as it has
    runs.  In the raster variant a run is wrapped against the content
    width less a fixed 40 pixels, its first line is prefixed with the
    bullet and a space, and its other lines with two spaces. *)
Theorem bullet_flow :
  (forall c0 t x y width font_name font_size leading,
      let bullet_width := stringWidth (lit "- ") font_name font_size in
      exists first others conts,
        Pdf.wrap_text stringWidth t font_name font_size (width - bullet_width)
        = first :: others
        /\ Pdf.ops (fst (Pdf.draw_bullet stringWidth c0 t x y width font_name
                           font_size leading))
           = Pdf.ops c0
               ++ Pdf.setFont font_name font_size
                  :: Pdf.drawString x y (lit "- ")
                  :: Pdf.drawString (x + bullet_width) y first :: conts
        /\ Forall2
             (fun o l => exists y', o = Pdf.drawString (x + bullet_width) y' l)
             conts others)
  /\ (forall runs margin content_width body_size body_leading c0 y,
        exists emitted,
          Pdf.ops (fst (Pdf.line_loop stringWidth margin content_width
                          body_size body_leading true runs c0 y))
          = Pdf.ops c0 ++ emitted
          /\ Pdf.count_markers emitted = length runs)
  /\ (forall runs,
        Imagegen.section_text_lines textlength runs true
        = flat_map
            (fun run =>
               match
                 Imagegen.wrap_text textlength run Imagegen.body_font
                   (Imagegen.float_of_Z (Imagegen.content_w - 34 * 2 - 40))
               with
               | [] => []
               | first :: others =>
                   (Imagegen.bullet_marker ++ first)
                     :: map (app Imagegen.blank_marker) others
               end)
            runs).
Proof.
  repeat apply conj.
  - intros c0 t x y width font_name font_size leading. cbv zeta.
    destruct (draw_bullet_ops stringWidth c0 t x y width font_name font_size
                leading) as (first & others & conts & Hw & Ho & Hall & _).
    exists first, others, conts. repeat apply conj; assumption.
  - intros runs margin content_width body_size body_leading c0 y.
    apply line_loop_markers.
  - intros runs. unfold Imagegen.section_text_lines.
    apply flat_map_ext. intros run.
    destruct (Imagegen.wrap_text _ _ _ _) as [|first others];
      [reflexivity|apply mark_lines_zero].
Qed.

End FlowClaims.

Section FlowExamples.
Import PyStr.
Local Open Scope float_scope.

(** C6, as stated, fails for the raster variant.  A run without a token
    gets no line and so no marker; and the width a run is wrapped against
    is the content width less 40, not less the measured width of the
    marker (20 under the sample metrics): a run of 215 characters is broken
    in two though it is within the content width less the marker. *)
Lemma bullet_flow_counterexample :
  Imagegen.section_text_lines Sample.textlength [[]] true = []
  /\ (Sample.textlength Imagegen.bullet_marker Imagegen.body_font =? 20) = true
  /\ length (Imagegen.section_text_lines Sample.textlength [Sample.long_run]
               true) = 2%nat
  /\ length (Imagegen.wrap_text Sample.textlength Sample.long_run
               Imagegen.body_font
               (Imagegen.float_of_Z (Imagegen.content_w - 34 * 2)
                - Sample.textlength Imagegen.bullet_marker Imagegen.body_font))
     = 1%nat.
Proof. repeat apply conj; vm_compute; reflexivity. Qed.

End FlowExamples.

(** ** More on the string primitives: joining and stripping *)

Section JoinFacts.
Import PyStr.

Lemma unwords_snoc (ws : list str) (w : str) :
  ws <> [] -> unwords (ws ++ [w]) = unwords ws ++ space :: w.
Proof.
  induction ws as [|v ws IH]; [contradiction|]. intros _.
  destruct ws as [|v' ws']; [reflexivity|].
  change (unwords ((v :: v' :: ws') ++ [w]))
    with (v ++ space :: unwords ((v' :: ws') ++ [w])).
  rewrite IH by discriminate.
  change (unwords (v :: v' :: ws')) with (v ++ space :: unwords (v' :: ws')).
  now rewrite <- app_assoc.
Qed.

Lemma token_first (w : str) :
  is_token w = true -> exists x r, w = x :: r /\ isspace x = false.
Proof.
  unfold is_token. destruct w as [|x r]; [discriminate|]. cbn.
  intros H. apply andb_prop in H as [Hx _]. apply negb_true_iff in Hx. eauto.
Qed.

Lemma rstrip_snoc (pre : str) (ch : char) :
  isspace ch = false -> rstrip (pre ++ [ch]) = pre ++ [ch].
Proof.
  intros Hch. induction pre as [|x pre IH].
  - cbn. now rewrite Hch.
  - cbn [app rstrip]. rewrite IH. now destruct pre.
Qed.

(** A string that starts and ends with something else than whitespace is
    its own [strip]. *)
Lemma strip_trimmed (x ch : char) (mid : str) :
  isspace x = false -> isspace ch = false ->
  strip (x :: mid ++ [ch]) = x :: mid ++ [ch].
Proof.
  intros Hx Hch. unfold strip. cbn [lstrip]. rewrite Hx.
  apply (rstrip_snoc (x :: mid) ch Hch).
Qed.

Lemma strip_space_token (w : str) :
  is_token w = true -> strip (space :: w) = w.
Proof.
  intros Hw. destruct (token_first w Hw) as (x & r & -> & Hx).
  destruct (token_last _ Hw) as (pre & ch & Heq & Hch).
  unfold strip. cbn [lstrip]. rewrite isspace_space. cbn [lstrip].
  rewrite Hx, Heq. now apply rstrip_snoc.
Qed.

Lemma strip_join (x : char) (r w : str) :
  isspace x = false -> is_token w = true ->
  strip ((x :: r) ++ space :: w) = (x :: r) ++ space :: w.
Proof.
  intros Hx Hw. destruct (token_last _ Hw) as (pre & ch & -> & Hch).
  change ((x :: r) ++ space :: pre ++ [ch])
    with (x :: (r ++ space :: pre ++ [ch])).
  replace (r ++ space :: pre ++ [ch]) with ((r ++ space :: pre) ++ [ch])
    by now rewrite <- app_assoc.
  now apply strip_trimmed.
Qed.

(** A line that equals the join of its tokens and has one starts with a
    character that is no whitespace. *)
Lemma joined_first (l : str) :
  split l <> [] -> unwords (split l) = l ->
  exists x r, l = x :: r /\ isspace x = false.
Proof.
  intros Hne Hjoin. pose proof (split_tokens l) as Htok.
  destruct (split l) as [|w ws]; [contradiction|].
  apply List.Forall_inv in Htok.
  destruct (token_first w Htok) as (x & r & -> & Hx).
  rewrite <- Hjoin. destruct ws; cbn; eauto.
Qed.

Lemma adjacent_snoc {A : Type} (R : A -> A -> Prop) (l : list A) (x y : A) :
  adjacent R (l ++ [x]) -> R x y -> adjacent R ((l ++ [x]) ++ [y]).
Proof.
  intros Hl Hxy. induction l as [|a l IH]; [now cbn|].
  destruct l as [|b l']; cbn in *.
  - tauto.
  - destruct Hl as [Hab Hrest]. split; [exact Hab|now apply IH].
Qed.

Lemma adjacent_last {A : Type} (R : A -> A -> Prop) (l : list A) (x x' : A) :
  adjacent R (l ++ [x]) -> (forall a, R a x -> R a x') ->
  adjacent R (l ++ [x']).
Proof.
  intros Hl Hx. induction l as [|a l IH]; [now cbn|].
  destruct l as [|b l']; cbn in *.
  - split; [|exact I]. apply Hx, Hl.
  - destruct Hl as [Hab Hrest]. split; [exact Hab|now apply IH].
Qed.

Lemma adjacent_lookup {A : Type} (R : A -> A -> Prop) (l : list A)
    (i : nat) (a b : A) :
  adjacent R l -> nth_error l i = Some a -> nth_error l (S i) = Some b ->
  R a b.
Proof.
  revert i. induction l as [|x l IH]; intros i Hadj Ha Hb;
    [destruct i; discriminate|].
  destruct l as [|y l']; [destruct i; discriminate|].
  destruct Hadj as [Hxy Hrest]. destruct i as [|i].
  - cbn in Ha, Hb. congruence.
  - apply (IH i Hrest); assumption.
Qed.

Lemma adjacent_cons {A : Type} (R : A -> A -> Prop) (a : A) (l : list A) :
  adjacent R (a :: l) -> adjacent R l.
Proof. destruct l; cbn; tauto. Qed.

End JoinFacts.

(** ** More on the word wrapper of the vector variant *)

Section PdfWrapMore.
Import PyStr Pdf.
Local Open Scope float_scope.

Variable stringWidth : str -> string -> float -> float.
Variables (font_name : string) (font_size width : float).

Local Abbreviation wrap_loop := (Pdf.wrap_loop stringWidth font_name font_size width).
Local Abbreviation overfull a w :=
  ((stringWidth (a ++ space :: w) font_name font_size <=? width) = false).

Lemma pdf_wrap_loop_length (words lines : list str) (current : str) :
  (length lines + 1 <= length (wrap_loop words lines current)
   /\ length (wrap_loop words lines current)
      <= length lines + 1 + length words)%nat.
Proof.
  revert lines current. induction words as [|word rest IH];
    intros lines current; cbn [Pdf.wrap_loop].
  - rewrite length_app. cbn. lia.
  - destruct (stringWidth _ _ _ <=? width).
    + specialize (IH lines (current ++ space :: word)). cbn [length]. lia.
    + specialize (IH (lines ++ [current]) word).
      rewrite length_app in IH. cbn [length] in *. lia.
Qed.

(** A break between two lines means that the first token of the second
    did not fit at the end of the first. *)
Lemma pdf_wrap_loop_adjacent (words lines : list str) (current : str) :
  Forall (fun w => is_token w = true) words ->
  split current <> [] ->
  adjacent (fun a b => exists w more, split b = w :: more /\ overfull a w)
    (lines ++ [current]) ->
  adjacent (fun a b => exists w more, split b = w :: more /\ overfull a w)
    (wrap_loop words lines current).
Proof.
  revert lines current. induction words as [|word rest IH];
    intros lines current Hw Hcur Hadj; [exact Hadj|].
  inversion Hw as [|? ? Hword Hrest]; subst. cbn [Pdf.wrap_loop].
  assert (Hsplit : split (current ++ space :: word) = split current ++ [word]).
  { rewrite split_app_space by apply isspace_space.
    now rewrite (split_token word). }
  destruct (stringWidth _ _ _ <=? width) eqn:Hfit.
  - apply IH; [assumption| |].
    + rewrite Hsplit. now destruct (split current).
    + apply (adjacent_last _ _ current); [exact Hadj|].
      intros a (w & more & Hs & Hover). rewrite Hsplit, Hs.
      exists w, (more ++ [word]). now split.
  - apply IH; [assumption| |].
    + now rewrite (split_token word).
    + apply adjacent_snoc; [exact Hadj|].
      exists word, []. split; [now apply split_token|exact Hfit].
Qed.

(** X1: the vector variant's wrapper returns at least one line and, for a
    text with tokens, at most one line a token. *)
Theorem pdf_wrap_line_count (t : str) :
  (1 <= length (Pdf.wrap_text stringWidth t font_name font_size width)
   /\ length (Pdf.wrap_text stringWidth t font_name font_size width)
      <= Nat.max 1 (length (split t)))%nat.
Proof.
  unfold Pdf.wrap_text. destruct (split t) as [|first others]; [cbn; lia|].
  pose proof (pdf_wrap_loop_length others [] first) as H. cbn [length] in *.
  lia.
Qed.

(** X2: the wrapper is greedy.  Where it breaks between two lines, the
    first token of the second line, put after the first line and a space,
    measures more than the width. *)
Theorem pdf_wrap_greedy (t : str) (i : nat) (a b : str) :
  nth_error (Pdf.wrap_text stringWidth t font_name font_size width) i
  = Some a ->
  nth_error (Pdf.wrap_text stringWidth t font_name font_size width) (S i)
  = Some b ->
  exists w more,
    split b = w :: more
    /\ (stringWidth (a ++ space :: w) font_name font_size <=? width) = false.
Proof.
  intros Ha Hb.
  eapply (adjacent_lookup
            (fun a b => exists w more, split b = w :: more /\ overfull a w));
    [|exact Ha|exact Hb].
  unfold Pdf.wrap_text. pose proof (split_tokens t) as Htok.
  destruct (split t) as [|first others]; [exact I|].
  inversion Htok as [|? ? Hfirst Hothers]; subst.
  apply pdf_wrap_loop_adjacent; [assumption| |exact I].
  now rewrite (split_token first).
Qed.

(** X3: every line of the wrapper is the join, by single spaces, of its
    own tokens: no leading, trailing or doubled whitespace survives. *)
Theorem pdf_wrap_lines_joined (t : str) :
  Forall (fun l => unwords (split l) = l)
    (Pdf.wrap_text stringWidth t font_name font_size width).
Proof.
  unfold Pdf.wrap_text. pose proof (split_tokens t) as Htok.
  destruct (split t) as [|first others]; [now repeat constructor|].
  inversion Htok as [|? ? Hfirst Hothers]; subst.
  eapply List.Forall_impl;
    [|apply (pdf_wrap_loop_Forall stringWidth font_name font_size width
               (fun l => is_token l = true
                         \/ (split l <> [] /\ unwords (split l) = l)))].
  - intros l [Hl|[_ Hl]]; [now rewrite (split_token l)|exact Hl].
  - constructor.
  - now left.
  - eapply List.Forall_impl; [|exact Hothers]. intros w Hw. now left.
  - intros cur w Hin Hcur _. right.
    rewrite List.Forall_forall in Hothers. pose proof (Hothers w Hin) as Hw.
    rewrite split_app_space by apply isspace_space.
    rewrite (split_token w) by assumption.
    assert (Hc : split cur <> [] /\ unwords (split cur) = cur).
    { destruct Hcur as [Htokc|Hc]; [|exact Hc].
      rewrite (split_token cur) by assumption. now split. }
    destruct Hc as [Hne Hjoin]. split; [now destruct (split cur)|].
    now rewrite unwords_snoc, Hjoin.
Qed.

End PdfWrapMore.

Section PdfWrapMoreExamples.
Import PyStr.
Local Open Scope float_scope.

Lemma pdf_wrap_greedy_witness :
  exists w more,
    split (lit "cc dd") = w :: more
    /\ (Sample.stringWidth (lit "aa bb" ++ space :: w) "Helvetica" 2 <=? 5)
       = false.
Proof.
  apply (pdf_wrap_greedy Sample.stringWidth "Helvetica" 2 5
           (lit "aa bb cc dd") 0 (lit "aa bb") (lit "cc dd"));
    vm_compute; reflexivity.
Defined.

End PdfWrapMoreExamples.

(** ** Where the drawing functions put their lines *)

Section PdfDrawMore.
Import PyStr Pdf.
Local Open Scope float_scope.

Variable stringWidth : str -> string -> float -> float.

Lemma lowered_succ_r (n : nat) (leading y : float) :
  lowered n leading (y - leading) = lowered (S n) leading y.
Proof.
  unfold lowered. now rewrite (Nat.iter_succ_r n (fun v => v - leading) y).
Qed.

Lemma lowered_add (n m : nat) (leading y : float) :
  lowered m leading (lowered n leading y) = lowered (n + m) leading y.
Proof.
  unfold lowered. rewrite Nat.add_comm.
  now rewrite (Nat.iter_add m n (fun v => v - leading) y).
Qed.

(** Line [i] is painted [i] leadings below the first; the cursor comes
    back one leading below the last. *)
Lemma draw_lines_spec (lines : list str) (c0 : canvas) (x y leading : float) :
  ops (fst (draw_lines c0 x y leading lines))
  = ops c0 ++ imap (fun i l => drawString x (lowered i leading y) l) lines
  /\ snd (draw_lines c0 x y leading lines) = lowered (length lines) leading y.
Proof.
  revert c0 y. induction lines as [|ln rest IH]; intros c0 y.
  - cbn. now rewrite app_nil_r.
  - cbn [draw_lines]. destruct (IH (emit c0 (drawString x y ln)) (y - leading))
      as [Hops Hy].
    rewrite Hops, Hy, imap_cons, lowered_succ_r. cbn [emit ops length].
    rewrite <- app_assoc. split; [|reflexivity]. cbn [app]. do 2 f_equal.
    apply imap_ext. intros i l _. cbn. now rewrite lowered_succ_r.
Qed.

Lemma draw_paragraph_spec (c0 : canvas) (t : str) (x y width : float)
    (font_name : string) (font_size leading : float) :
  let lines := wrap_text stringWidth t font_name font_size width in
  ops (fst (draw_paragraph stringWidth c0 t x y width font_name font_size
              leading))
  = ops c0 ++ setFont font_name font_size
       :: imap (fun i l => drawString x (lowered i leading y) l) lines
  /\ snd (draw_paragraph stringWidth c0 t x y width font_name font_size
            leading)
     = lowered (length lines) leading y.
Proof.
  cbv zeta. unfold draw_paragraph.
  destruct (draw_lines_spec
              (wrap_text stringWidth t font_name font_size width)
              (emit c0 (setFont font_name font_size)) x y leading)
    as [Hops Hy].
  rewrite Hops, Hy. cbn [emit ops]. now rewrite <- app_assoc.
Qed.

Lemma draw_bullet_spec (c0 : canvas) (t : str) (x y width : float)
    (font_name : string) (font_size leading : float) :
  let bullet_width := stringWidth (lit "- ") font_name font_size in
  let wrapped :=
    wrap_text stringWidth t font_name font_size (width - bullet_width) in
  ops (fst (draw_bullet stringWidth c0 t x y width font_name font_size
              leading))
  = ops c0 ++ setFont font_name font_size :: drawString x y (lit "- ")
       :: imap (fun i l => drawString (x + bullet_width)
                             (lowered i leading y) l) wrapped
  /\ snd (draw_bullet stringWidth c0 t x y width font_name font_size leading)
     = lowered (length wrapped) leading y.
Proof.
  cbv zeta. unfold draw_bullet.
  destruct (pdf_wrap_text_cons stringWidth font_name font_size
              (width - stringWidth (lit "- ") font_name font_size) t)
    as (first & others & Hw).
  cbv beta in Hw. rewrite Hw.
  match goal with
  | |- context [draw_lines ?c ?x' ?y' ?l others] =>
      destruct (draw_lines_spec others c x' y' l) as [Hops Hy]
  end.
  rewrite Hops, Hy, imap_cons, lowered_succ_r. cbn [emit ops length].
  rewrite <- !app_assoc. split; [|reflexivity]. cbn [app]. do 4 f_equal.
  apply imap_ext. intros i l _. cbn. now rewrite lowered_succ_r.
Qed.

(** The cursor after the runs of a section is lowered once per wrapped
    line of all its runs. *)
Lemma line_loop_cursor (margin content_width body_size body_leading : float)
    (as_bullets : bool) (lines : list str) (c0 : canvas) (y : float) :
  snd (line_loop stringWidth margin content_width body_size body_leading
         as_bullets lines c0 y)
  = lowered
      (length (flat_map (wrapped_lines stringWidth content_width body_size
                           as_bullets) lines))
      body_leading y.
Proof.
  revert c0 y. induction lines as [|ln rest IH]; intros c0 y; [reflexivity|].
  cbn [line_loop flat_map]. rewrite length_app, <- lowered_add.
  unfold wrapped_lines at 2. destruct as_bullets.
  - destruct (draw_bullet_spec c0 ln margin y content_width "Helvetica"
                body_size body_leading) as [_ Hy]. cbv zeta in Hy.
    destruct (draw_bullet _ _ _ _ _ _ _ _ _) as [c1 y1]. cbn [snd] in Hy.
    rewrite IH. now rewrite Hy.
  - destruct (draw_paragraph_spec c0 ln margin y content_width "Helvetica"
                body_size body_leading) as [_ Hy]. cbv zeta in Hy.
    destruct (draw_paragraph _ _ _ _ _ _ _ _ _) as [c1 y1]. cbn [snd] in Hy.
    rewrite IH. now rewrite Hy.
Qed.

(** X4: [draw_paragraph] sets the font and paints wrapped line [i] at
    [x], [i] leadings below [y]; it returns [y] lowered by one leading
    per wrapped line. *)
Theorem draw_paragraph_positions (c0 : canvas) (t : str) (x y width : float)
    (font_name : string) (font_size leading : float) :
  let lines := wrap_text stringWidth t font_name font_size width in
  ops (fst (draw_paragraph stringWidth c0 t x y width font_name font_size
              leading))
  = ops c0 ++ setFont font_name font_size
       :: imap (fun i l => drawString x (lowered i leading y) l) lines
  /\ snd (draw_paragraph stringWidth c0 t x y width font_name font_size
            leading)
     = lowered (length lines) leading y.
Proof. apply draw_paragraph_spec. Qed.

(** X5: [draw_bullet] paints the marker at [(x, y)] and wrapped line [i]
    at [x] plus the marker's width, [i] leadings below [y]; there is at
    least one line, and it returns [y] lowered by one leading per
    line. *)
Theorem draw_bullet_positions (c0 : canvas) (t : str) (x y width : float)
    (font_name : string) (font_size leading : float) :
  let bullet_width := stringWidth (lit "- ") font_name font_size in
  let wrapped :=
    wrap_text stringWidth t font_name font_size (width - bullet_width) in
  ops (fst (draw_bullet stringWidth c0 t x y width font_name font_size
              leading))
  = ops c0 ++ setFont font_name font_size :: drawString x y (lit "- ")
       :: imap (fun i l => drawString (x + bullet_width)
                             (lowered i leading y) l) wrapped
  /\ snd (draw_bullet stringWidth c0 t x y width font_name font_size leading)
     = lowered (length wrapped) leading y
  /\ (1 <= length wrapped)%nat.
Proof.
  cbv zeta.
  destruct (draw_bullet_spec c0 t x y width font_name font_size leading)
    as [Hops Hy]. cbv zeta in Hops, Hy. repeat apply conj; try assumption.
  destruct (pdf_wrap_text_cons stringWidth font_name font_size
              (width - stringWidth (lit "- ") font_name font_size) t)
    as (first & others & Hw).
  cbv beta in Hw. rewrite Hw. cbn. lia.
Qed.

(** X6: the height a section takes depends on its text only through the
    number of wrapped lines: the cursor after a section is the cursor
    before it, less the heading's leading, lowered by the body leading
    once per wrapped line of its runs, less the gap. *)
Theorem section_cursor
    (margin content_width heading_size heading_leading body_size body_leading
       section_gap : float)
    (section_title : str) (lines : list str) (as_bullets : bool)
    (c0 : canvas) (y : float) :
  snd (draw_one_section stringWidth margin content_width heading_size
         heading_leading body_size body_leading section_gap
         (section_title, lines, as_bullets) c0 y)
  = lowered
      (length (flat_map (wrapped_lines stringWidth content_width body_size
                           as_bullets) lines))
      body_leading (y - heading_leading)
    - section_gap.
Proof.
  unfold draw_one_section.
  match goal with
  | |- context [line_loop _ ?m ?w ?s ?l ?b ?ls ?c ?y'] =>
      pose proof (line_loop_cursor m w s l b ls c y') as H;
      destruct (line_loop stringWidth m w s l b ls c y') as [c1 y1]
  end.
  cbn [snd] in *. now rewrite H.
Qed.

End PdfDrawMore.

(** ** More on the driver of the vector variant *)

Section PdfDriverMore.
Import PyStr Pdf.
Local Open Scope float_scope.

Variable stringWidth : str -> string -> float -> float.

Lemma section_loop_prefix
    (margin content_width heading_size heading_leading body_size body_leading
       section_gap : float) (done more : list section) (c0 : canvas)
    (y0 : float) :
  extends
    (c (section_loop stringWidth margin content_width heading_size
          heading_leading body_size body_leading section_gap done c0 y0))
    (c (section_loop stringWidth margin content_width heading_size
          heading_leading body_size body_leading section_gap (done ++ more)
          c0 y0)).
Proof.
  revert c0 y0. induction done as [|sec rest IH]; intros c0 y0.
  - apply section_loop_extends.
  - cbn [app section_loop].
    destruct (draw_one_section _ _ _ _ _ _ _ _ _ _ _) as [c1 y1].
    destruct (y1 <? margin + 8); [apply extends_refl|apply IH].
Qed.

Lemma scale_loop_other_files (inp : inputs) (output_path other : string)
    (candidates : list float) (prev : option frame)
    (fs : gmap string canvas) :
  other <> output_path ->
  snd (scale_loop stringWidth inp output_path candidates prev fs) !! other
  = fs !! other.
Proof.
  intros Hother. revert prev fs.
  induction candidates as [|scale rest IH]; intros prev fs; [reflexivity|].
  cbn [scale_loop]. unfold save. rewrite attempt_filename.
  destruct (negb _); [|rewrite IH]; cbn [snd];
    now rewrite lookup_insert_ne by congruence.
Qed.

Lemma count_headings_app (l1 l2 : list op) :
  count_headings (l1 ++ l2) = (count_headings l1 + count_headings l2)%nat.
Proof. unfold count_headings. now rewrite List.filter_app, length_app. Qed.

Lemma count_headings_strings (x leading y : float) (lines : list str) :
  count_headings (imap (fun i l => drawString x (lowered i leading y) l) lines)
  = 0%nat.
Proof.
  revert y. induction lines as [|ln rest IH]; intros y; [reflexivity|].
  rewrite imap_cons. unfold count_headings in *. cbn [List.filter is_heading_fill].
  rewrite <- (IH (y - leading)). do 2 f_equal.
  apply imap_ext. intros i l _. cbn. now rewrite lowered_succ_r.
Qed.

(** The runs of a section add no heading. *)
Lemma line_loop_headings (margin content_width body_size body_leading : float)
    (as_bullets : bool) (lines : list str) (c0 : canvas) (y : float) :
  exists added,
    ops (fst (line_loop stringWidth margin content_width body_size
                body_leading as_bullets lines c0 y)) = ops c0 ++ added
    /\ count_headings added = 0%nat.
Proof.
  revert c0 y. induction lines as [|ln rest IH]; intros c0 y.
  - exists []. cbn. now rewrite app_nil_r.
  - cbn [line_loop]. destruct as_bullets.
    + destruct (draw_bullet_spec stringWidth c0 ln margin y content_width
                  "Helvetica" body_size body_leading) as [Hops _].
      cbv zeta in Hops.
      destruct (draw_bullet _ _ _ _ _ _ _ _ _) as [c1 y1]. cbn [fst] in Hops.
      destruct (IH c1 y1) as (added & Ha & Hc). eexists.
      rewrite Ha, Hops, <- app_assoc. split; [reflexivity|].
      rewrite count_headings_app, Hc.
      change (count_headings (?a :: ?b :: ?l)) with (count_headings l).
      now rewrite count_headings_strings.
    + destruct (draw_paragraph_spec stringWidth c0 ln margin y content_width
                  "Helvetica" body_size body_leading) as [Hops _].
      cbv zeta in Hops.
      destruct (draw_paragraph _ _ _ _ _ _ _ _ _) as [c1 y1].
      cbn [fst] in Hops.
      destruct (IH c1 y1) as (added & Ha & Hc). eexists.
      rewrite Ha, Hops, <- app_assoc. split; [reflexivity|].
      rewrite count_headings_app, Hc.
      change (count_headings (?a :: ?l)) with (count_headings l).
      now rewrite count_headings_strings.
Qed.

Lemma draw_one_section_headings
    (margin content_width heading_size heading_leading body_size body_leading
       section_gap : float) (sec : section) (c0 : canvas) (y : float) :
  exists added,
    ops (fst (draw_one_section stringWidth margin content_width heading_size
                heading_leading body_size body_leading section_gap sec c0 y))
    = ops c0 ++ added
    /\ count_headings added = 1%nat.
Proof.
  unfold draw_one_section. destruct sec as [[section_title lines] as_bullets].
  match goal with
  | |- context [line_loop _ ?m ?w ?s ?l ?b ?ls ?c ?y'] =>
      destruct (line_loop_headings m w s l b ls c y') as (added & Ha & Hc);
      destruct (line_loop stringWidth m w s l b ls c y') as [c1 y1]
  end.
  cbn [fst] in *. eexists. rewrite Ha. cbn [emit ops].
  rewrite <- !app_assoc. split; [reflexivity|].
  rewrite !count_headings_app, Hc. reflexivity.
Qed.

(** A pass that does not overflow draws one heading a section. *)
Lemma section_loop_headings
    (margin content_width heading_size heading_leading body_size body_leading
       section_gap : float) (secs : list section) (c0 : canvas) (y0 : float) :
  let fr := section_loop stringWidth margin content_width heading_size
              heading_leading body_size body_leading section_gap secs c0 y0 in
  exists added,
    ops (c fr) = ops c0 ++ added
    /\ (count_headings added <= length secs)%nat
    /\ (overflow fr = false -> count_headings added = length secs).
Proof.
  cbv zeta. revert c0 y0. induction secs as [|sec rest IH]; intros c0 y0.
  - exists []. cbn. rewrite app_nil_r. repeat split. lia.
  - cbn [section_loop].
    destruct (draw_one_section_headings margin content_width heading_size
                heading_leading body_size body_leading section_gap sec c0 y0)
      as (a1 & Ha1 & Hc1).
    destruct (draw_one_section _ _ _ _ _ _ _ _ _ _ _) as [c1 y1].
    cbn [fst] in Ha1. destruct (y1 <? margin + 8).
    + exists a1. cbn [c overflow length]. repeat split;
        [exact Ha1|lia|discriminate].
    + destruct (IH c1 y1) as (a2 & Ha2 & Hle & Heq).
      exists (a1 ++ a2). rewrite Ha2, Ha1, <- app_assoc.
      rewrite count_headings_app, Hc1. cbn [length].
      repeat split; [lia|]. intros Hov. rewrite (Heq Hov). reflexivity.
Qed.

(** X7: the layout goes down the page and never back: the drawing calls
    of an attempt on some sections are the first drawing calls of the
    attempt on those sections followed by more. *)
Theorem attempt_prefix_stable (inp : inputs) (output_path : string)
    (scale : float) (prev : option frame) (done more : list section) :
  exists added,
    ops (c (attempt stringWidth (with_sections inp (done ++ more))
              output_path scale prev))
    = ops (c (attempt stringWidth (with_sections inp done) output_path scale
                prev))
      ++ added.
Proof.
  unfold attempt, with_sections. cbn [letter Pdf.margin title sections].
  destruct (letter inp) as [width height].
  match goal with
  | |- context [section_loop _ ?m ?w ?hs ?hl ?bs ?bl ?g (done ++ more) ?c ?y'] =>
      destruct (section_loop_prefix m w hs hl bs bl g done more c y')
        as (_ & _ & added & Ha)
  end.
  exists added. exact Ha.
Qed.

(** X8: the driver writes to the output path only: any other file is
    after the call what it was before. *)
Theorem build_other_files_untouched (inp : inputs)
    (output_path other : string) (fs : gmap string canvas) :
  other <> output_path ->
  snd (build_single_page_pdf_with stringWidth inp output_path fs) !! other
  = fs !! other.
Proof.
  intros Hother. unfold build_single_page_pdf_with. cbn [snd].
  now apply scale_loop_other_files.
Qed.

(** X10: an attempt that does not overflow has drawn every section: the
    canvas holds one heading fill a section. *)
Theorem fitting_attempt_draws_all (inp : inputs) (output_path : string)
    (scale : float) (prev : option frame) :
  overflow (attempt stringWidth inp output_path scale prev) = false ->
  count_headings (ops (c (attempt stringWidth inp output_path scale prev)))
  = length (sections inp).
Proof.
  unfold attempt. destruct (letter inp) as [width height].
  match goal with
  | |- context [section_loop _ ?m ?w ?hs ?hl ?bs ?bl ?g ?secs ?c0 ?y'] =>
      destruct (section_loop_headings m w hs hl bs bl g secs c0 y')
        as (added & Ha & _ & Heq)
  end.
  cbv zeta in *. intros Hov. rewrite Ha, count_headings_app, (Heq Hov).
  reflexivity.
Qed.

End PdfDriverMore.

Section PdfDriverMoreExamples.
Import PyStr Pdf.
Local Open Scope float_scope.

Lemma build_other_files_untouched_witness :
  snd (build_single_page_pdf_with Sample.stringWidth Sample.tight_page
         Sample.output_path ∅) !! "README.md"
  = (∅ : gmap string canvas) !! "README.md".
Proof.
  apply (build_other_files_untouched Sample.stringWidth Sample.tight_page
           Sample.output_path "README.md" ∅).
  discriminate.
Defined.

Lemma fitting_attempt_draws_all_witness :
  count_headings
    (ops (c (attempt Sample.stringWidth Sample.tight_page Sample.output_path
               0.5 None)))
  = length (sections Sample.tight_page).
Proof.
  apply (fitting_attempt_draws_all Sample.stringWidth Sample.tight_page
           Sample.output_path 0.5 None).
  vm_compute; reflexivity.
Defined.

End PdfDriverMoreExamples.

(** ** More on the word wrapper of the raster variant *)

Section ImagegenWrapMore.
Import PyStr Imagegen.
Local Open Scope float_scope.

Variable textlength : str -> font -> float.
Variables (f : font) (max_width : float).

Local Abbreviation wrap_loop := (Imagegen.wrap_loop textlength f max_width).
Local Abbreviation overfull a w :=
  ((textlength (strip (a ++ space :: w)) f <=? max_width) = false).

Lemma img_step_tokens (cur w : str) :
  is_token w = true ->
  split (strip (cur ++ space :: w)) = split cur ++ [w].
Proof.
  intros Hw. rewrite split_strip, split_app_space by apply isspace_space.
  now rewrite (split_token w).
Qed.

Lemma img_step_nonempty (cur w : str) :
  is_token w = true -> strip (cur ++ space :: w) <> [].
Proof.
  intros Hw Heq. pose proof (img_step_tokens cur w Hw) as H.
  rewrite Heq in H. now destruct (split cur).
Qed.

(** Completed lines are never touched again. *)
Lemma img_wrap_loop_lines (words lines : list str) (ln : str) :
  wrap_loop words lines ln
  = (lines ++ fst (wrap_loop words [] ln), snd (wrap_loop words [] ln)).
Proof.
  revert lines ln. induction words as [|w rest IH]; intros lines ln.
  - cbn. now rewrite app_nil_r.
  - cbn [Imagegen.wrap_loop]. destruct (textlength _ _ <=? max_width).
    + apply IH.
    + rewrite IH, (IH [ln]). cbn [fst snd]. now rewrite <- app_assoc.
Qed.

(** From a buffer that is not empty on, no empty line is produced. *)
Lemma img_wrap_loop_nonempty (words : list str) (ln : str) :
  Forall (fun w => is_token w = true) words -> ln <> [] ->
  Forall (fun l => l <> []) (fst (wrap_loop words [] ln))
  /\ snd (wrap_loop words [] ln) <> [].
Proof.
  intros Hw Hln.
  apply (img_wrap_loop_Forall textlength f max_width (fun l => l <> []));
    [constructor|exact Hln| |].
  - eapply List.Forall_impl; [|exact Hw]. intros w Ht ->. discriminate.
  - intros cur w Hin _ _. apply img_step_nonempty.
    rewrite List.Forall_forall in Hw. now apply Hw.
Qed.

Lemma img_wrap_loop_length (words lines : list str) (ln : str) :
  (length (fst (wrap_loop words lines ln)) <= length lines + length words)%nat.
Proof.
  revert lines ln. induction words as [|w rest IH]; intros lines ln;
    cbn [Imagegen.wrap_loop]; [cbn; lia|].
  destruct (textlength _ _ <=? max_width).
  - specialize (IH lines (strip (ln ++ space :: w))). cbn [length]. lia.
  - specialize (IH (lines ++ [ln]) w). rewrite length_app in IH.
    cbn [length] in *. lia.
Qed.

Lemma adjacent_prefix {A : Type} (R : A -> A -> Prop) (l : list A) (x : A) :
  adjacent R (l ++ [x]) -> adjacent R l.
Proof.
  induction l as [|a l IH]; [now cbn|]. destruct l as [|b l']; [now cbn|].
  cbn. intros [Hab Hrest]. split; [exact Hab|now apply IH].
Qed.

Lemma img_wrap_loop_adjacent (words lines : list str) (ln : str) :
  Forall (fun w => is_token w = true) words ->
  adjacent (fun a b => exists w more, split b = w :: more /\ overfull a w)
    (lines ++ [ln]) ->
  adjacent (fun a b => exists w more, split b = w :: more /\ overfull a w)
    (fst (wrap_loop words lines ln) ++ [snd (wrap_loop words lines ln)]).
Proof.
  revert lines ln. induction words as [|word rest IH];
    intros lines ln Hw Hadj; [exact Hadj|].
  inversion Hw as [|? ? Hword Hrest]; subst. cbn [Imagegen.wrap_loop].
  destruct (textlength _ _ <=? max_width) eqn:Hfit.
  - apply IH; [assumption|].
    apply (adjacent_last _ _ ln); [exact Hadj|].
    intros a (w & more & Hs & Hover).
    rewrite (img_step_tokens ln word Hword), Hs.
    exists w, (more ++ [word]). now split.
  - apply IH; [assumption|].
    apply adjacent_snoc; [exact Hadj|].
    exists word, []. split; [now apply split_token|exact Hfit].
Qed.

(** X11: in the raster variant an empty line can only come first, and it
    does exactly when the first token alone is wider than the limit;
    every other line is non-empty. *)
Theorem img_wrap_leading_empty (t : str) (first : str) (others : list str) :
  split t = first :: others ->
  exists rest,
    Forall (fun l => l <> []) rest
    /\ Imagegen.wrap_text textlength t f max_width
       = if textlength first f <=? max_width then rest else [] :: rest.
Proof.
  intros Hsplit. pose proof (split_tokens t) as Htok. rewrite Hsplit in Htok.
  inversion Htok as [|? ? Hfirst Hothers]; subst.
  assert (Hne : first <> []) by (intros ->; discriminate).
  unfold Imagegen.wrap_text. rewrite Hsplit. cbn [Imagegen.wrap_loop app].
  rewrite (strip_space_token first Hfirst).
  destruct (img_wrap_loop_nonempty others first Hothers Hne) as [Hl Hs].
  destruct (textlength first f <=? max_width).
  - destruct (Imagegen.wrap_loop _ _ _ others [] first) as [lines ln].
    cbn [fst snd] in *. destruct ln as [|ch ln']; [congruence|].
    cbn [truthy]. eexists. split; [|reflexivity].
    apply Forall_app. split; [exact Hl|]. now constructor.
  - rewrite img_wrap_loop_lines.
    destruct (Imagegen.wrap_loop _ _ _ others [] first) as [lines ln].
    cbn [fst snd] in *. destruct ln as [|ch ln']; [congruence|].
    cbn [truthy app]. eexists. split; [|reflexivity].
    apply Forall_app. split; [exact Hl|]. now constructor.
Qed.

(** X12: the raster wrapper returns at most one line more than the text
    has tokens, and no line exactly when the text has no token. *)
Theorem img_wrap_line_count (t : str) :
  (length (Imagegen.wrap_text textlength t f max_width)
   <= length (split t) + 1)%nat
  /\ (Imagegen.wrap_text textlength t f max_width = [] <-> split t = []).
Proof.
  unfold Imagegen.wrap_text. pose proof (split_tokens t) as Htok.
  pose proof (img_wrap_loop_length (split t) [] []) as Hlen.
  split.
  - destruct (Imagegen.wrap_loop _ _ _ _ _ _) as [lines ln].
    cbn [fst length] in Hlen. destruct (truthy ln);
      [rewrite length_app; cbn [length]|]; lia.
  - split; [|now intros ->].
    destruct (split t) as [|first others]; [reflexivity|].
    inversion Htok as [|? ? Hfirst Hothers]; subst.
    cbn [Imagegen.wrap_loop app].
    assert (Hkeep : forall lines ln,
               snd (Imagegen.wrap_loop textlength f max_width others lines ln)
               <> [] ->
               (let '(ls, l) :=
                  Imagegen.wrap_loop textlength f max_width others lines ln in
                if truthy l then ls ++ [l] else ls) = [] -> False).
    { intros lines ln.
      destruct (Imagegen.wrap_loop textlength f max_width others lines ln)
        as [ls l].
      cbn [snd]. intros Hl. destruct l; [congruence|]. cbn [truthy].
      intros H. now destruct ls. }
    intros H. exfalso.
    destruct (textlength _ _ <=? max_width); eapply Hkeep; try exact H.
    + rewrite img_wrap_loop_lines. cbn [snd].
      apply img_wrap_loop_nonempty; [assumption|].
      now apply (img_step_nonempty [] first).
    + rewrite img_wrap_loop_lines. cbn [snd].
      apply img_wrap_loop_nonempty; [assumption|].
      intros ->. discriminate.
Qed.

(** X13: the raster wrapper is greedy.  Where it breaks between two
    lines, the first token of the second line, joined to the first line
    as the code joins it, measures more than the limit. *)
Theorem img_wrap_greedy (t : str) (i : nat) (a b : str) :
  nth_error (Imagegen.wrap_text textlength t f max_width) i = Some a ->
  nth_error (Imagegen.wrap_text textlength t f max_width) (S i) = Some b ->
  exists w more,
    split b = w :: more
    /\ (textlength (strip (a ++ space :: w)) f <=? max_width) = false.
Proof.
  intros Ha Hb.
  eapply (adjacent_lookup
            (fun a b => exists w more, split b = w :: more /\ overfull a w));
    [|exact Ha|exact Hb].
  unfold Imagegen.wrap_text.
  pose proof (img_wrap_loop_adjacent (split t) [] [] (split_tokens t) I) as H.
  destruct (Imagegen.wrap_loop _ _ _ _ _ _) as [lines ln]. cbn [fst snd] in H.
  destruct (truthy ln); [exact H|]. now apply adjacent_prefix in H.
Qed.

(** X14: every line of the raster wrapper is the join, by single spaces,
    of its own tokens. *)
Theorem img_wrap_lines_joined (t : str) :
  Forall (fun l => unwords (split l) = l)
    (Imagegen.wrap_text textlength t f max_width).
Proof.
  unfold Imagegen.wrap_text. pose proof (split_tokens t) as Htok.
  destruct (img_wrap_loop_Forall textlength f max_width
              (fun l => unwords (split l) = l) (split t) [] [])
    as [Hlines Hline].
  - constructor.
  - reflexivity.
  - eapply List.Forall_impl; [|exact Htok]. intros w Hw.
    now rewrite (split_token w).
  - intros cur w Hin Hcur _. rewrite List.Forall_forall in Htok.
    pose proof (Htok w Hin) as Hw. destruct (split cur) as [|v vs] eqn:Hs.
    + cbn in Hcur. subst cur. cbn [app].
      rewrite (strip_space_token w Hw). now rewrite (split_token w).
    + destruct (joined_first cur) as (x & r & -> & Hx);
        [now rewrite Hs|now rewrite Hs|].
      rewrite (strip_join x r w Hx Hw).
      rewrite split_app_space by apply isspace_space.
      rewrite (split_token w) by assumption. rewrite Hs in *.
      now rewrite unwords_snoc, Hcur.
  - destruct (Imagegen.wrap_loop _ _ _ _ _ _) as [lines ln].
    cbn [fst snd] in *. destruct (truthy ln); [|exact Hlines].
    apply Forall_app. split; [exact Hlines|]. now constructor.
Qed.

End ImagegenWrapMore.

Section ImagegenWrapMoreExamples.
Import PyStr.
Local Open Scope float_scope.

Lemma img_wrap_leading_empty_witness :
  exists rest,
    Forall (fun l => l <> []) rest
    /\ Imagegen.wrap_text Sample.textlength (lit "aaaaaaaaa bb")
         Imagegen.body_font 50
       = if Sample.textlength (lit "aaaaaaaaa") Imagegen.body_font <=? 50
         then rest else [] :: rest.
Proof.
  apply (img_wrap_leading_empty Sample.textlength Imagegen.body_font 50
           (lit "aaaaaaaaa bb") (lit "aaaaaaaaa") [lit "bb"]).
  vm_compute; reflexivity.
Defined.

Lemma img_wrap_greedy_witness :
  exists w more,
    split (lit "cc dd") = w :: more
    /\ (Sample.textlength (strip (lit "aa bb" ++ space :: w))
          Imagegen.body_font <=? 50) = false.
Proof.
  apply (img_wrap_greedy Sample.textlength Imagegen.body_font 50
           (lit "aa bb cc dd") 0 (lit "aa bb") (lit "cc dd"));
    vm_compute; reflexivity.
Defined.

End ImagegenWrapMoreExamples.

(** ** The section boxes of the raster variant *)

Section ImagegenSectionMore.
Import PyStr Imagegen.

Variable textlength : str -> font -> float.

Lemma boxes_app (d1 d2 : list draw_op) : boxes (d1 ++ d2) = boxes d1 ++ boxes d2.
Proof. unfold boxes. apply flat_map_app. Qed.

(** The body lines are painted 44 pixels apart from [ty] down, and are no
    boxes. *)
Lemma paint_lines_spec (inner_pad ty : Z) (text_lines : list str) :
  length (paint_lines inner_pad ty text_lines) = length text_lines
  /\ boxes (paint_lines inner_pad ty text_lines) = []
  /\ Forall
       (fun o =>
          exists y' s,
            o = text (margin + inner_pad) y' s body_font "#2a4c53"
            /\ (ty <= y')%Z
            /\ (y' + 44 <= ty + 44 * Z.of_nat (length text_lines))%Z)
       (paint_lines inner_pad ty text_lines).
Proof.
  revert ty. induction text_lines as [|ln rest IH]; intros ty.
  - repeat split. constructor.
  - destruct (IH (ty + 44)%Z) as (Hlen & Hboxes & Hall).
    cbn [paint_lines length]. repeat split.
    + now rewrite Hlen.
    + exact Hboxes.
    + constructor.
      * exists ty, ln. repeat split; lia.
      * eapply List.Forall_impl; [|exact Hall].
        intros o (y' & s & -> & Hlo & Hhi). exists y', s.
        repeat split; lia.
Qed.

Lemma flat_map_flat_map {A B C : Type} (g : A -> list B) (h : B -> list C)
    (l : list A) :
  flat_map h (flat_map g l) = flat_map (fun a => flat_map h (g a)) l.
Proof.
  induction l as [|a l IH]; [reflexivity|].
  cbn [flat_map]. now rewrite flat_map_app, IH.
Qed.

Lemma split_blank_marker (l : str) : split (blank_marker ++ l) = split l.
Proof. reflexivity. Qed.

Lemma split_bullet_marker (l : str) :
  split (bullet_marker ++ l) = [8226%N] :: split l.
Proof.
  change (bullet_marker ++ l) with ([8226%N] ++ space :: l).
  now rewrite split_app_space by apply isspace_space.
Qed.

(** X15: the box of a section.  [draw_section] adds a rounded rectangle
    from [y] down to [y + 124 + 44 n] for [n] body lines, the title 28
    pixels into it, and the [n] body lines, each of them inside the box
    with the bottom padding of 34 pixels to spare under its 44-pixel
    slot; it advances the global [y] by [150 + 44 n]. *)
Theorem draw_section_geometry (title : str) (lines : list str) (bullet : bool)
    (box border : string) (d : list draw_op) (y : Z) :
  let text_lines := section_text_lines textlength lines bullet in
  let n := Z.of_nat (length text_lines) in
  exists body,
    fst (draw_section textlength title lines bullet box border d y)
    = d ++ rounded_rectangle margin y (W - margin) (y + 124 + 44 * n) 28 box
             border 3
         :: text (margin + 34) (y + 28) title h1_font "#143e47" :: body
    /\ length body = length text_lines
    /\ Forall
         (fun o =>
            exists y' s,
              o = text (margin + 34) y' s body_font "#2a4c53"
              /\ (y + 90 <= y')%Z
              /\ (y' + 44 + 34 <= y + 124 + 44 * n)%Z)
         body
    /\ snd (draw_section textlength title lines bullet box border d y)
       = (y + 150 + 44 * n)%Z.
Proof.
  cbv zeta. unfold draw_section.
  destruct (paint_lines_spec 34 (y + 34 + 56)
              (section_text_lines textlength lines bullet))
    as (Hlen & _ & Hall).
  exists (paint_lines 34 (y + 34 + 56)
            (section_text_lines textlength lines bullet)).
  cbn [fst snd]. repeat apply conj.
  - rewrite <- !app_assoc. cbn [app]. do 2 f_equal; [f_equal; lia|].
    f_equal. f_equal. lia.
  - exact Hlen.
  - eapply List.Forall_impl; [|exact Hall].
    intros o (y' & s & -> & Hlo & Hhi). exists y', s. repeat split; lia.
  - lia.
Qed.

(** X16: sections never overlap.  Two calls of [draw_section] in a row
    add two boxes, the second starting 26 pixels under the bottom of the
    first. *)
Theorem draw_section_stacks (title1 title2 : str) (lines1 lines2 : list str)
    (bullet1 bullet2 : bool) (box1 border1 box2 border2 : string)
    (d : list draw_op) (y : Z) :
  let n1 := Z.of_nat (length (section_text_lines textlength lines1 bullet1)) in
  let n2 := Z.of_nat (length (section_text_lines textlength lines2 bullet2)) in
  let first := draw_section textlength title1 lines1 bullet1 box1 border1 d y in
  let second :=
    draw_section textlength title2 lines2 bullet2 box2 border2 (fst first)
      (snd first) in
  let bottom1 := (y + 124 + 44 * n1)%Z in
  boxes (fst second)
  = boxes d ++ [(y, bottom1); (bottom1 + 26, bottom1 + 26 + 124 + 44 * n2)%Z].
Proof.
  cbv zeta. unfold draw_section. cbn [fst snd].
  rewrite !boxes_app.
  repeat match goal with
  | |- context [boxes (paint_lines ?p ?ty ?ls)] =>
      let H := fresh in
      destruct (paint_lines_spec p ty ls) as (_ & H & _); rewrite H; clear H
  end.
  cbn [boxes flat_map app]. rewrite !app_nil_r, <- !app_assoc. cbn [app].
  do 2 f_equal; [f_equal; lia|]. f_equal. f_equal; lia.
Qed.

(** X17: no word of a section is lost or reordered on its way to the
    text lines.  In a plain section the tokens of the text lines are the
    tokens of the runs; in a bulleted section they are, run by run, the
    bullet followed by the tokens of the run, and nothing for a run
    without a token. *)
Theorem section_text_lines_tokens (lines : list str) :
  flat_map split (section_text_lines textlength lines false)
  = flat_map split lines
  /\ flat_map split (section_text_lines textlength lines true)
     = flat_map
         (fun run =>
            match split run with
            | [] => []
            | ws => [8226%N] :: ws
            end)
         lines.
Proof.
  unfold section_text_lines. split; rewrite flat_map_flat_map;
    apply flat_map_ext; intros run.
  - apply img_wrap_text_tokens.
  - pose proof (img_wrap_text_tokens textlength body_font
                  (float_of_Z (content_w - 34 * 2 - 40)) run) as Htok.
    pose proof (img_wrap_text_blank textlength body_font
                  (float_of_Z (content_w - 34 * 2 - 40)) run) as Hnil.
    cbv beta in Htok, Hnil.
    destruct (wrap_text textlength run body_font _) as [|first others].
    + cbn in Htok. now rewrite <- Htok.
    + rewrite mark_lines_zero. cbn [flat_map]. rewrite split_bullet_marker.
      change (flat_map split (map (app blank_marker) others))
        with (flat_map split (flat_map (fun l => [blank_marker ++ l]) others)).
      rewrite flat_map_flat_map.
      rewrite (flat_map_ext _ split)
        by (intros l; cbn [flat_map]; rewrite app_nil_r;
            apply split_blank_marker).
      cbn [flat_map] in Htok. cbn [app]. rewrite Htok.
      destruct (split run) as [|w ws] eqn:Hs; [|reflexivity].
      now specialize (Hnil eq_refl).
Qed.

End ImagegenSectionMore.

(** ** A page without sections *)

Section PdfEmptyContent.
Import PyStr Pdf.
Local Open Scope float_scope.

Variable stringWidth : str -> string -> float -> float.

Lemma attempt_no_sections (inp : inputs) (output_path : string)
    (scale : float) (prev : option frame) :
  sections inp = [] ->
  c (attempt stringWidth inp output_path scale prev)
  = Canvas output_path (letter inp) (title_block inp scale)
  /\ overflow (attempt stringWidth inp output_path scale prev) = false.
Proof.
  intros Hsec. unfold attempt, title_block. rewrite Hsec.
  destruct (letter inp) as [width height]. now cbn.
Qed.

(** X18: with no section at all nothing can overflow, however small the
    page: the first candidate is kept and the document holds the title
    block alone. *)
Theorem no_sections_title_only (inp : inputs) (output_path : string)
    (fs : gmap string canvas) (scale : float) (rest : list float) :
  sections inp = [] ->
  scales inp = scale :: rest ->
  build_single_page_pdf_with stringWidth inp output_path fs
  = (tt, <[output_path :=
             Canvas output_path (letter inp) (title_block inp scale)]> fs).
Proof.
  intros Hsec Hscales. unfold build_single_page_pdf_with.
  rewrite Hscales. cbn [scale_loop].
  destruct (attempt_no_sections inp output_path scale None Hsec) as [Hc Hov].
  rewrite Hov. cbn [negb snd]. unfold save. now rewrite Hc.
Qed.

End PdfEmptyContent.

Section PdfEmptyContentExamples.
Import PyStr Pdf.
Local Open Scope float_scope.

Lemma no_sections_title_only_witness :
  build_single_page_pdf_with Sample.stringWidth
    (with_sections Sample.overfull_page []) Sample.output_path ∅
  = (tt, <[Sample.output_path :=
             Canvas Sample.output_path
               (letter (with_sections Sample.overfull_page []))
               (title_block (with_sections Sample.overfull_page []) 1.0)]> ∅).
Proof.
  apply (no_sections_title_only Sample.stringWidth
           (with_sections Sample.overfull_page []) Sample.output_path ∅
           1.0 [0.5]); reflexivity.
Defined.

End PdfEmptyContentExamples.

(** ** The overflow test of the driver, section by section *)

Section PdfOverflowFacts.
Import PyStr Pdf.
Local Open Scope float_scope.

Variable stringWidth : str -> string -> float -> float.

Lemma draw_one_section_cursor
    (margin content_width heading_size heading_leading body_size body_leading
       section_gap : float)
    (section_title : str) (lines : list str) (as_bullets : bool)
    (c0 : canvas) (y0 : float) :
  snd (draw_one_section stringWidth margin content_width heading_size
         heading_leading body_size body_leading section_gap
         (section_title, lines, as_bullets) c0 y0)
  = lowered
      (length (flat_map (wrapped_lines stringWidth content_width body_size
                           as_bullets) lines))
      body_leading (y0 - heading_leading)
    - section_gap.
Proof.
  unfold draw_one_section.
  match goal with
  | |- context [line_loop _ ?m ?w ?s ?l ?b ?ls ?c ?y'] =>
      pose proof (line_loop_cursor stringWidth m w s l b ls c y') as H;
      destruct (line_loop stringWidth m w s l b ls c y') as [c1 y1]
  end.
  cbn [snd] in *. now rewrite H.
Qed.

(** The flag of the section loop is the test [y < margin + 8] on the
    cursors after the sections. *)
Lemma section_loop_trail
    (margin content_width heading_size heading_leading body_size body_leading
       section_gap : float) (secs : list section) (c0 : canvas) (y0 : float) :
  overflow (section_loop stringWidth margin content_width heading_size
              heading_leading body_size body_leading section_gap secs c0 y0)
  = existsb (fun v => v <? margin + 8)
      (cursor_trail stringWidth content_width heading_leading body_size
         body_leading section_gap secs y0).
Proof.
  revert c0 y0. induction secs as [|sec rest IH]; intros c0 y0; [reflexivity|].
  cbn [section_loop cursor_trail]. destruct sec as [[section_title lines] b].
  pose proof (draw_one_section_cursor margin content_width heading_size
                heading_leading body_size body_leading section_gap
                section_title lines b c0 y0) as Hy.
  destruct (draw_one_section _ _ _ _ _ _ _ _ _ _ _) as [c1 y1].
  cbn [snd] in Hy. rewrite <- Hy. cbn [existsb].
  destruct (y1 <? margin + 8); [reflexivity|]. cbn [orb]. apply IH.
Qed.

(** An overflowing pass is the pass over the sections before the one
    that overflowed, followed by the whole of that section. *)
Lemma section_loop_cut
    (margin content_width heading_size heading_leading body_size body_leading
       section_gap : float) (secs : list section) (c0 : canvas) (y0 : float) :
  let loop := section_loop stringWidth margin content_width heading_size
                heading_leading body_size body_leading section_gap in
  let one := draw_one_section stringWidth margin content_width heading_size
               heading_leading body_size body_leading section_gap in
  overflow (loop secs c0 y0) = true ->
  exists done sec rest,
    secs = done ++ sec :: rest
    /\ overflow (loop done c0 y0) = false
    /\ loop secs c0 y0
       = Frame (fst (one sec (c (loop done c0 y0)) (y (loop done c0 y0))))
           (snd (one sec (c (loop done c0 y0)) (y (loop done c0 y0)))) true
    /\ (y (loop secs c0 y0) <? margin + 8) = true
    /\ forall rest', loop (done ++ sec :: rest') c0 y0 = loop secs c0 y0.
Proof.
  cbv zeta. revert c0 y0. induction secs as [|sec rest IH]; intros c0 y0;
    [discriminate|].
  cbn [section_loop].
  destruct (draw_one_section _ _ _ _ _ _ _ _ _ _ _) as [c1 y1] eqn:Hsec.
  destruct (y1 <? margin + 8) eqn:Hlow.
  - intros _. exists [], sec, rest. cbn [app section_loop c y].
    rewrite Hsec. cbn [fst snd]. repeat apply conj; try reflexivity.
    + exact Hlow.
    + intros rest'. now rewrite Hlow.
  - intros Hov.
    destruct (IH c1 y1 Hov) as (done & s & post & -> & Hd & Heq & Hy & Hr).
    exists (sec :: done), s, post. cbn [app section_loop].
    rewrite Hsec, Hlow. repeat apply conj; try assumption; reflexivity.
Qed.

Variables (inp : inputs) (output_path : string).

(** An attempt is the section loop over the sections of the input, at the
    scaled sizes and leadings, from a new canvas that holds the title
    block and from the cursor under the title and its rule. *)
Lemma attempt_unfold (scale : float) (prev : option frame) :
  attempt stringWidth inp output_path scale prev
  = section_loop stringWidth (margin inp) (fst (letter inp) - margin inp * 2)
      (13.5 * scale) (17 * scale) (11.0 * scale) (13.6 * scale) (8 * scale)
      (sections inp)
      (Canvas output_path (letter inp) (title_block inp scale))
      (snd (letter inp) - margin inp - 28 * scale - 8 * scale - 1 * scale).
Proof.
  unfold attempt, title_block. now destruct (letter inp) as [width height].
Qed.

Lemma attempt_overflow_cursors (scale : float) (prev : option frame) :
  overflow (attempt stringWidth inp output_path scale prev)
  = existsb (fun v => v <? margin inp + 8) (page_cursors stringWidth inp scale).
Proof. rewrite attempt_unfold. apply section_loop_trail. Qed.

Lemma title_block_headings (scale : float) :
  count_headings (title_block inp scale) = 0%nat.
Proof. unfold title_block. now destruct (letter inp). Qed.

Lemma attempt_headings_fit (scale : float) (prev : option frame) :
  overflow (attempt stringWidth inp output_path scale prev) = false ->
  count_headings (ops (c (attempt stringWidth inp output_path scale prev)))
  = length (sections inp).
Proof.
  rewrite attempt_unfold.
  match goal with
  | |- context [section_loop _ ?m ?w ?hs ?hl ?bs ?bl ?g ?secs ?c0 ?y'] =>
      destruct (section_loop_headings stringWidth m w hs hl bs bl g secs c0 y')
        as (added & Ha & _ & Heq)
  end.
  cbv zeta in *. intros Hov. rewrite Ha, count_headings_app, (Heq Hov).
  cbn [ops]. now rewrite title_block_headings.
Qed.

End PdfOverflowFacts.

Section PdfCutFacts.
Import PyStr Pdf.
Local Open Scope float_scope.

Variable stringWidth : str -> string -> float -> float.

(** An overflowing attempt: the attempt on the sections before the one
    that overflowed, which does not overflow, followed by the whole of
    that section; the cursor is then below [margin + 8], the canvas holds
    one heading for each of these sections, and what follows them has no
    part in it. *)
Lemma attempt_cut (inp : inputs) (output_path : string) (scale : float)
    (prev : option frame) :
  overflow (attempt stringWidth inp output_path scale prev) = true ->
  exists done sec rest,
    sections inp = done ++ sec :: rest
    /\ overflow (attempt stringWidth (with_sections inp done) output_path
                   scale prev) = false
    /\ attempt stringWidth inp output_path scale prev
       = (let before :=
            attempt stringWidth (with_sections inp done) output_path scale
              prev in
          Frame
            (fst (attempt_section stringWidth inp scale sec (c before)
                    (y before)))
            (snd (attempt_section stringWidth inp scale sec (c before)
                    (y before)))
            true)
    /\ (y (attempt stringWidth inp output_path scale prev) <? margin inp + 8)
       = true
    /\ count_headings
         (ops (c (attempt stringWidth inp output_path scale prev)))
       = (length done + 1)%nat
    /\ forall rest',
         attempt stringWidth (with_sections inp (done ++ sec :: rest'))
           output_path scale prev
         = attempt stringWidth inp output_path scale prev.
Proof.
  intros Hov. pose proof Hov as Hov'. rewrite attempt_unfold in Hov'.
  destruct (section_loop_cut stringWidth _ _ _ _ _ _ _ _ _ _ Hov')
    as (done & sec & rest & Hs & Hd & Heq & Hy & Hr). cbv zeta in *.
  assert (Hbefore : attempt stringWidth (with_sections inp done) output_path
                      scale prev
                    = section_loop stringWidth (margin inp)
                        (fst (letter inp) - margin inp * 2) (13.5 * scale)
                        (17 * scale) (11.0 * scale) (13.6 * scale) (8 * scale)
                        done
                        (Canvas output_path (letter inp)
                           (title_block inp scale))
                        (snd (letter inp) - margin inp - 28 * scale
                         - 8 * scale - 1 * scale))
    by apply (attempt_unfold stringWidth (with_sections inp done)).
  exists done, sec, rest. repeat apply conj.
  - exact Hs.
  - now rewrite Hbefore.
  - rewrite Hbefore. unfold attempt_section. now rewrite attempt_unfold.
  - now rewrite attempt_unfold.
  - rewrite attempt_unfold, Heq. cbn [c].
    destruct (draw_one_section_headings stringWidth (margin inp)
                (fst (letter inp) - margin inp * 2) (13.5 * scale)
                (17 * scale) (11.0 * scale) (13.6 * scale) (8 * scale) sec
                (c (section_loop stringWidth (margin inp)
                      (fst (letter inp) - margin inp * 2) (13.5 * scale)
                      (17 * scale) (11.0 * scale) (13.6 * scale) (8 * scale)
                      done
                      (Canvas output_path (letter inp)
                         (title_block inp scale))
                      (snd (letter inp) - margin inp - 28 * scale
                       - 8 * scale - 1 * scale)))
                (y (section_loop stringWidth (margin inp)
                      (fst (letter inp) - margin inp * 2) (13.5 * scale)
                      (17 * scale) (11.0 * scale) (13.6 * scale) (8 * scale)
                      done
                      (Canvas output_path (letter inp)
                         (title_block inp scale))
                      (snd (letter inp) - margin inp - 28 * scale
                       - 8 * scale - 1 * scale))))
      as (added & Ha & Hc).
    rewrite Ha, count_headings_app, Hc, <- Hbefore.
    rewrite (attempt_headings_fit stringWidth (with_sections inp done))
      by now rewrite Hbefore.
    reflexivity.
  - intros rest'.
    rewrite (attempt_unfold stringWidth
               (with_sections inp (done ++ sec :: rest'))).
    rewrite attempt_unfold. apply Hr.
Qed.

End PdfCutFacts.

(** ** The scale-fit driver: the fit test, the attempts and the cut *)

Section DriverCriterionClaims.
Import PyStr Pdf.
Local Open Scope float_scope.

(** C1, as the code has it.  The cursors of the page at a scale are the
    values of [y] after each section, every section taking the heading
    leading, one body leading per wrapped line and the gap, all scaled.
    The driver tries the candidates in order; a candidate at which some
    cursor is below [margin + 8] is passed over, and the layout kept, and
    left at the output path, is that of the earliest candidate at which
    no cursor is below [margin + 8]; that attempt ends with the overflow
    flag unset and no later candidate is tried. *)
Theorem first_fit_selected
    (stringWidth : str -> string -> float -> float) (inp : inputs)
    (output_path : string) (fs : gmap string canvas)
    (before : list float) (scale : float) (after : list float) :
  scales inp = before ++ scale :: after ->
  Forall
    (fun s =>
       existsb (fun v => v <? margin inp + 8) (page_cursors stringWidth inp s)
       = true)
    before ->
  existsb (fun v => v <? margin inp + 8) (page_cursors stringWidth inp scale)
  = false ->
  build_single_page_pdf_with stringWidth inp output_path fs
  = (tt, <[output_path := c (attempt stringWidth inp output_path scale None)]> fs)
  /\ fst (scale_loop stringWidth inp output_path (scales inp) None fs)
     = Some (attempt stringWidth inp output_path scale None)
  /\ overflow (attempt stringWidth inp output_path scale None) = false
  /\ Forall
       (fun s => overflow (attempt stringWidth inp output_path s None) = true)
       before.
Proof.
  intros Hscales Hbefore Hfit.
  assert (Hov : overflow (attempt stringWidth inp output_path scale None)
                = false) by now rewrite attempt_overflow_cursors.
  assert (Hovs : Forall
                   (fun s => overflow (attempt stringWidth inp output_path s
                                         None) = true) before).
  { eapply List.Forall_impl; [|exact Hbefore]. intros s Hs.
    now rewrite attempt_overflow_cursors. }
  unfold build_single_page_pdf_with.
  rewrite Hscales, scale_loop_first_fit by assumption. now repeat split.
Qed.

Lemma first_fit_selected_witness :
  build_single_page_pdf_with Sample.stringWidth Sample.tight_page
    Sample.output_path ∅
  = (tt, <[Sample.output_path :=
             c (attempt Sample.stringWidth Sample.tight_page
                  Sample.output_path 0.5 None)]> ∅).
Proof.
  apply (first_fit_selected Sample.stringWidth Sample.tight_page
           Sample.output_path ∅ [1.0] 0.5 []).
  - reflexivity.
  - constructor; [vm_compute; reflexivity|constructor].
  - vm_compute; reflexivity.
Defined.



(** C10, as the code has it.  At every candidate that overflows, the
    attempt is the attempt on the sections before the first one that
    overflows, which does not overflow, followed by that whole section;
    the cursor is then below [margin + 8]; the canvas holds one heading
    for each of these sections; and the sections after it have no part in
    the result.  When every candidate overflows the file left at the
    output path is that layout at the last candidate: it lacks the
    sections after the one that overflowed, and is the layout of all
    sections when that one is the last. *)
Theorem overflow_truncates_layout
    (stringWidth : str -> string -> float -> float) (inp : inputs)
    (output_path : string) (fs : gmap string canvas)
    (candidates : list float) (smallest : float) :
  scales inp = candidates ++ [smallest] ->
  Forall
    (fun s =>
       existsb (fun v => v <? margin inp + 8) (page_cursors stringWidth inp s)
       = true)
    (scales inp) ->
  Forall
    (fun s =>
       exists done sec rest,
         sections inp = done ++ sec :: rest
         /\ overflow (attempt stringWidth (with_sections inp done) output_path
                        s None) = false
         /\ attempt stringWidth inp output_path s None
            = (let before :=
                 attempt stringWidth (with_sections inp done) output_path s
                   None in
               Frame
                 (fst (attempt_section stringWidth inp s sec (c before)
                         (y before)))
                 (snd (attempt_section stringWidth inp s sec (c before)
                         (y before)))
                 true)
         /\ (y (attempt stringWidth inp output_path s None) <? margin inp + 8)
            = true
         /\ count_headings
              (ops (c (attempt stringWidth inp output_path s None)))
            = (length done + 1)%nat
         /\ forall rest',
              attempt stringWidth (with_sections inp (done ++ sec :: rest'))
                output_path s None
              = attempt stringWidth inp output_path s None)
    (scales inp)
  /\ snd (build_single_page_pdf_with stringWidth inp output_path fs)
     = <[output_path :=
           c (attempt stringWidth inp output_path smallest None)]> fs.
Proof.
  intros Hscales Hall.
  assert (Hov : Forall
                  (fun s => overflow (attempt stringWidth inp output_path s
                                        None) = true) (scales inp)).
  { eapply List.Forall_impl; [|exact Hall]. intros s Hs.
    now rewrite attempt_overflow_cursors. }
  split.
  - eapply List.Forall_impl; [|exact Hov]. intros s Hs.
    now apply attempt_cut.
  - unfold build_single_page_pdf_with. cbn [snd]. rewrite Hscales in *.
    now rewrite scale_loop_all_overflow.
Qed.

Lemma overflow_truncates_layout_witness :
  snd (build_single_page_pdf_with Sample.stringWidth Sample.overfull_page
         Sample.output_path ∅)
  = <[Sample.output_path :=
        c (attempt Sample.stringWidth Sample.overfull_page
             Sample.output_path 0.5 None)]> ∅.
Proof.
  apply (overflow_truncates_layout Sample.stringWidth Sample.overfull_page
           Sample.output_path ∅ [1.0] 0.5).
  - reflexivity.
  - constructor; [vm_compute; reflexivity|].
    constructor; [vm_compute; reflexivity|constructor].
Defined.

(** C10, as stated, fails where the section that overflows is the last
    one.  On the tight page with the scale 1.0 alone the only candidate
    overflows, and the file left holds the layout of all sections: the
    heading and the five lines of its one section, the last of them
    included. *)
Lemma complete_layout_counterexample :
  let fr :=
    attempt Sample.stringWidth Sample.tight_single Sample.output_path 1.0
      None in
  existsb (fun v => v <? 48 + 8)
    (page_cursors Sample.stringWidth Sample.tight_single 1.0) = true
  /\ overflow fr = true
  /\ snd (build_single_page_pdf_with Sample.stringWidth Sample.tight_single
            Sample.output_path ∅) !! Sample.output_path = Some (c fr)
  /\ count_headings (ops (c fr)) = length (sections Sample.tight_single)
  /\ map (fun o => match o with drawString _ _ t => t | _ => [] end)
       (List.filter
          (fun o => match o with drawString _ _ _ => true | _ => false end)
          (ops (c fr)))
     = [lit "T"; lit "S"; lit "a"; lit "b"; lit "c"; lit "d"; lit "e"].
Proof. cbv zeta. repeat apply conj; vm_compute; reflexivity. Qed.

End DriverCriterionClaims.
